(** * Spotify proxy and metadata extractor: token cache and response normalization

    A shallow embedding of the JavaScript sources

    - the proxy server ([getSpotifyToken] and the four catalog route
      handlers [/api/featured-tracks], [/api/genre-tracks], [/api/search],
      [/api/new-releases]);
    - the [title] entry of [extractMetadata] in [src/extract-metadata.js].

    JavaScript values are modelled by an inductive type with the language's
    own truthiness, property access, optional chaining and [||] / [&&];
    an exception is a value of a result type.  Module level mutable state
    ([accessToken], [tokenExpiry]), the host clock and the network are an
    explicit world threaded through a small state-and-exception monad.

    Numbers are integers ([Z]): every number the modelled code computes with
    (millisecond timestamps, lifetimes in seconds, HTTP status codes) is an
    integer far below 2^53, where IEEE doubles are exact. *)

From Stdlib Require Import ZArith List String Bool Lia DecimalString.
Import ListNotations.

Open Scope string_scope.
Open Scope Z_scope.

Set Warnings "-register-all".

(* ================================================================== *)
(** ** JavaScript values *)
(* ================================================================== *)

Module JS.

(** Thrown values.  [Error] is [new Error(message)]; [TypeError] is what
    the engine throws when a property of [undefined] / [null] is read or a
    non-function is called, and records the property name involved. *)
Inductive exn : Type :=
| Error (message : string)
| TypeError (reading : string).

Inductive result (A : Type) : Type :=
| Ok (a : A)
| Throw (e : exn).
Arguments Ok {A} a.
Arguments Throw {A} e.

Definition bind {A B} (r : result A) (k : A -> result B) : result B :=
  match r with
  | Ok a => k a
  | Throw e => Throw e
  end.

Declare Scope js_scope.
Delimit Scope js_scope with js.
Notation "'let*' x ':=' c 'in' k" := (bind c (fun x => k))
  (at level 10, x name, c at level 100, k at level 200) : js_scope.
Open Scope js_scope.

(** A parsed JSON document, plus [undefined].  An object is the ordered
    list of its own properties. *)
Inductive value : Type :=
| Undefined
| Null
| Bool (b : bool)
| Num (n : Z)
| Str (s : string)
| Arr (elems : list value)
| Obj (props : list (string * value)).

(** ToBoolean. *)
Definition truthy (v : value) : bool :=
  match v with
  | Undefined | Null => false
  | Bool b => b
  | Num n => negb (n =? 0)
  | Str s => negb (s =? "")%string
  | Arr _ | Obj _ => true
  end.

Definition nullish (v : value) : bool :=
  match v with
  | Undefined | Null => true
  | _ => false
  end.

(** Own property lookup; a missing property reads as [undefined]. *)
Fixpoint own (props : list (string * value)) (k : string) : value :=
  match props with
  | [] => Undefined
  | (k', v) :: rest => if (k' =? k)%string then v else own rest k
  end.

Fixpoint has_own (props : list (string * value)) (k : string) : bool :=
  match props with
  | [] => false
  | (k', _) :: rest => (k' =? k)%string || has_own rest k
  end.

Definition of_nat (i : nat) : string := NilZero.string_of_uint (Nat.to_uint i).
Definition of_Z (n : Z) : string := NilZero.string_of_int (Z.to_int n).

Definition char_at (s : string) (i : nat) : value :=
  match String.get i s with
  | Some c => Str (String c EmptyString)
  | None => Undefined
  end.

(** [v.k] for the property names the modelled code reads: none of them is
    an array index or is defined on a prototype. *)
Definition get (v : value) (k : string) : result value :=
  match v with
  | Undefined | Null => Throw (TypeError k)
  | Obj props => Ok (own props k)
  | Arr elems =>
      Ok (if (k =? "length")%string then Num (Z.of_nat (List.length elems))
          else Undefined)
  | Str s =>
      Ok (if (k =? "length")%string then Num (Z.of_nat (String.length s))
          else Undefined)
  | Bool _ | Num _ => Ok Undefined
  end.

(** [v?.k] *)
Definition opt_get (v : value) (k : string) : result value :=
  if nullish v then Ok Undefined else get v k.

(** [v[i]] for a literal index [i]. *)
Definition index (v : value) (i : nat) : result value :=
  match v with
  | Undefined | Null => Throw (TypeError (of_nat i))
  | Arr elems => Ok (nth i elems Undefined)
  | Str s => Ok (char_at s i)
  | Obj props => Ok (own props (of_nat i))
  | Bool _ | Num _ => Ok Undefined
  end.

(** [a || b] and [a && b]: the right operand is evaluated only when the
    left one does not decide. *)
Definition or_else (a b : result value) : result value :=
  let* x := a in if truthy x then Ok x else b.

Definition and_also (a b : result value) : result value :=
  let* x := a in if truthy x then b else Ok x.

Infix "|||" := or_else (at level 50, left associativity) : js_scope.
Infix "&&&" := and_also (at level 40, left associativity) : js_scope.

(** Array.prototype.filter / map with a callback that may throw.  Any
    receiver other than an array has no such method, so the call throws. *)
Fixpoint filterM (p : value -> result value) (xs : list value)
  : result (list value) :=
  match xs with
  | [] => Ok []
  | x :: rest =>
      let* keep := p x in
      let* rest' := filterM p rest in
      Ok (if truthy keep then x :: rest' else rest')
  end.

Fixpoint mapM (f : value -> result value) (xs : list value)
  : result (list value) :=
  match xs with
  | [] => Ok []
  | x :: rest =>
      let* y := f x in
      let* rest' := mapM f rest in
      Ok (y :: rest')
  end.

Definition filter (v : value) (p : value -> result value)
  : result value :=
  match v with
  | Arr elems => let* kept := filterM p elems in Ok (Arr kept)
  | _ => Throw (TypeError "filter")
  end.

Definition map (v : value) (f : value -> result value) : result value :=
  match v with
  | Arr elems => let* ys := mapM f elems in Ok (Arr ys)
  | _ => Throw (TypeError "map")
  end.

(** ToString, as Array.prototype.join applies it to each element. *)
Fixpoint to_string (v : value) : string :=
  match v with
  | Undefined => "undefined"
  | Null => "null"
  | Bool true => "true"
  | Bool false => "false"
  | Num n => of_Z n
  | Str s => s
  | Arr elems =>
      String.concat ","
        (List.map (fun x => if nullish x then "" else to_string x) elems)
  | Obj _ => "[object Object]"
  end.

Definition join_elem (v : value) : string :=
  if nullish v then "" else to_string v.

(** [v.join(sep)] *)
Definition join (v : value) (sep : string) : result value :=
  match v with
  | Arr elems => Ok (Str (String.concat sep (List.map join_elem elems)))
  | _ => Throw (TypeError "join")
  end.

(** What [res.json(v)] puts on the wire, read back by the client:
    JSON.stringify omits object properties whose value is [undefined] and
    writes [null] for an [undefined] array element. *)
Definition wire_props (wire : value -> value)
  : list (string * value) -> list (string * value) :=
  fix go (ps : list (string * value)) : list (string * value) :=
    match ps with
    | [] => []
    | (k, Undefined) :: rest => go rest
    | (k, x) :: rest => (k, wire x) :: go rest
    end.

Fixpoint wire (v : value) : value :=
  match v with
  | Arr elems =>
      Arr (List.map (fun x => match x with
                              | Undefined => Null
                              | _ => wire x
                              end) elems)
  | Obj props => Obj (wire_props wire props)
  | _ => v
  end.

Definition keys (v : value) : list string :=
  match v with
  | Obj props => List.map fst props
  | _ => []
  end.

Definition has_field (v : value) (k : string) : bool :=
  match v with
  | Obj props => has_own props k
  | _ => false
  end.

End JS.

(* ================================================================== *)
(** ** The access-token cache ([getSpotifyToken]) *)
(* ================================================================== *)

Module TokenCache.
Import JS.

(** The argument of [fetch]. *)
Record request : Type := {
  url : string;
  method : string;
  headers : list (string * string);
  body : string
}.

(** The body of a successful token response, as the code reads it:
    [data.access_token] (a string) and [data.expires_in] (seconds). *)
Record token_data : Type := {
  access_token : string;
  expires_in : Z
}.

(** A settled [fetch]: [ok], [status], and what [response.text()] and
    [response.json()] resolve to ([json] throws on a malformed body). *)
Record response : Type := {
  ok : bool;
  status : Z;
  text : string;
  json : result token_data
}.

Inductive outcome : Type :=
| Rejected (e : exn)
| Resolved (r : response).

(** One round trip to the token endpoint: what was sent, the clock reading
    once the reply had been read, and the reply. *)
Record exchange : Type := {
  sent : request;
  finished_at : Z;
  got : outcome
}.

(** Module state ([accessToken], [tokenExpiry], both initially [null],
    written [None]), the host clock in milliseconds since the epoch, the
    round trips made so far and what [console.error] printed. *)
Record World : Type := {
  accessToken : option string;
  tokenExpiry : option Z;
  clock : Z;
  exchanges : list exchange;
  console : list exn
}.

Definition boot (t : Z) : World :=
  {| accessToken := None; tokenExpiry := None; clock := t;
     exchanges := []; console := [] |}.

(** The clock moves between two calls. *)
Definition at_time (t : Z) (w : World) : World :=
  {| accessToken := accessToken w; tokenExpiry := tokenExpiry w; clock := t;
     exchanges := exchanges w; console := console w |}.

(** State and exceptions: a thrown exception keeps the state reached. *)
Definition M (A : Type) : Type := World -> result A * World.

Definition ret {A} (a : A) : M A := fun w => (Ok a, w).
Definition throw {A} (e : exn) : M A := fun w => (Throw e, w).
Definition lift {A} (r : result A) : M A := fun w => (r, w).

Definition mbind {A B} (c : M A) (k : A -> M B) : M B :=
  fun w =>
    match c w with
    | (Ok a, w') => k a w'
    | (Throw e, w') => (Throw e, w')
    end.

Definition try_catch {A} (c : M A) (handler : exn -> M A) : M A :=
  fun w =>
    match c w with
    | (Ok a, w') => (Ok a, w')
    | (Throw e, w') => handler e w'
    end.

Declare Scope world_scope.
Delimit Scope world_scope with world.
Notation "x <- c ;; k" := (mbind c (fun x => k))
  (at level 100, c at next level, right associativity) : world_scope.
Notation "c ;; k" := (mbind c (fun _ => k))
  (at level 100, right associativity) : world_scope.
Open Scope world_scope.

Definition Date_now : M Z := fun w => (Ok (clock w), w).

Definition set_accessToken (tok : string) : M unit := fun w =>
  (Ok tt, {| accessToken := Some tok; tokenExpiry := tokenExpiry w;
             clock := clock w; exchanges := exchanges w;
             console := console w |}).

Definition set_tokenExpiry (t : Z) : M unit := fun w =>
  (Ok tt, {| accessToken := accessToken w; tokenExpiry := Some t;
             clock := clock w; exchanges := exchanges w;
             console := console w |}).

Definition console_error (e : exn) : M unit := fun w =>
  (Ok tt, {| accessToken := accessToken w; tokenExpiry := tokenExpiry w;
             clock := clock w; exchanges := exchanges w;
             console := console w ++ [e] |}).

(** An environment variable is [undefined] ([None]) or a string; the empty
    string is falsy like [undefined]. *)
Definition env_value (v : option string) : value :=
  match v with
  | Some s => Str s
  | None => Undefined
  end.

Section Server.

(** [SPOTIFY_CONFIG], read once from the process environment. *)
Variable clientId clientSecret : option string.

(** [Buffer.from(s).toString('base64')]. *)
Variable base64 : string -> string.

(** The token endpoint and the network path to it: for the n-th round trip
    of the process, how many milliseconds pass until the reply has been
    read, and the reply. *)
Variable net : nat -> Z * outcome.

(** The promise of a [fetch] settles with outcome [o]; [t] is the clock
    reading once the reply, body included, has been read.  The round trip is
    logged and the awaiting call goes on, or throws if the promise was
    rejected. *)
Definition settle (rq : request) (t : Z) (o : outcome) : M response :=
  fun w =>
    let w' := {| accessToken := accessToken w; tokenExpiry := tokenExpiry w;
                 clock := t;
                 exchanges :=
                   exchanges w ++ [{| sent := rq; finished_at := t; got := o |}];
                 console := console w |} in
    match o with
    | Rejected e => (Throw e, w')
    | Resolved r => (Ok r, w')
    end.

(** [await fetch(..)] when nothing else runs in between. *)
Definition fetch (rq : request) : M response := fun w =>
  let '(elapsed, o) := net (List.length (exchanges w)) in
  settle rq (clock w + elapsed) o w.

Definition token_request : request :=
  {| url := "https://accounts.spotify.com/api/token";
     method := "POST";
     headers :=
       [("Content-Type", "application/x-www-form-urlencoded");
        ("Authorization",
         "Basic " ++ base64 (to_string (env_value clientId) ++ ":"
                             ++ to_string (env_value clientSecret)))];
     body := "grant_type=client_credentials" |}.

(** [accessToken && tokenExpiry && Date.now() < tokenExpiry] *)
Definition cache_valid (w : World) : bool :=
  match accessToken w with
  | None => false
  | Some tok =>
      truthy (Str tok) &&
      match tokenExpiry w with
      | None => false
      | Some expiry => truthy (Num expiry) && (clock w <? expiry)
      end
  end.

(** From [if (!response.ok)] to [return accessToken]: what runs once the
    reply is in.  After the body has been read nothing is awaited, so the
    two assignments and the [return] run in one piece; [return accessToken]
    returns the value just assigned. *)
Definition store_reply (response : response) : M string :=
  (if negb (ok response)
   then
     errorText <- ret (text response) ;;
     throw (Error ("Spotify token error: " ++ of_Z (status response)
                   ++ " - " ++ errorText))
   else ret tt) ;;
  data <- lift (json response) ;;
  set_accessToken (access_token data) ;;
  now <- Date_now ;;
  set_tokenExpiry (now + (expires_in data - 60) * 1000) ;;
  ret (access_token data).

(** The [catch] clause: log and rethrow. *)
Definition report (error : exn) : M string :=
  console_error error ;; throw error.

(** The [try] block and its [catch], entered on a cache miss. *)
Definition refresh : M string :=
  try_catch
    (if negb (truthy (env_value clientId))
        || negb (truthy (env_value clientSecret))
     then throw (Error "Spotify credentials not configured")
     else
       response <- fetch token_request ;;
       store_reply response)
    report.

(** A call that was suspended at [await fetch(..)] while other requests
    were being served, resumed when its promise settles. *)
Definition resume (t : Z) (o : outcome) : M string :=
  try_catch
    (response <- settle token_request t o ;;
     store_reply response)
    report.

(** The guard, then the [try] block.  (Where the guard holds a token is
    held, so the [None] branch below is never taken.) *)
Definition getSpotifyToken : M string := fun w =>
  if cache_valid w then
    match accessToken w with
    | Some tok => (Ok tok, w)
    | None => refresh w
    end
  else refresh w.

(** Both credentials are set (and not empty). *)
Definition configured : Prop :=
  truthy (env_value clientId) = true /\ truthy (env_value clientSecret) = true.

(** The states of the cache over the life of the process.  It starts with
    both variables [null].  A call served in one piece at some clock
    reading changes it; so does the resumption of a call that had been
    suspended at its [fetch] (which is only reached with both credentials
    set) while others ran. *)
Inductive reachable : World -> Prop :=
| reachable_boot (t : Z) : reachable (boot t)
| reachable_call (w : World) (t : Z) :
    reachable w -> reachable (snd (getSpotifyToken (at_time t w)))
| reachable_resume (w : World) (t : Z) (o : outcome) :
    configured -> reachable w -> reachable (snd (resume t o w)).

End Server.

(** The token a round trip handed out, with the instant it was stored:
    the reply was [ok] and its body parsed. *)
Definition grant_of (x : exchange) : option (Z * token_data) :=
  match got x with
  | Resolved r =>
      if ok r then
        match json r with
        | Ok data => Some (finished_at x, data)
        | Throw _ => None
        end
      else None
  | Rejected _ => None
  end.

(** The most recent grant in a log of round trips (oldest first). *)
Fixpoint last_grant (log : list exchange) : option (Z * token_data) :=
  match log with
  | [] => None
  | x :: rest =>
      match last_grant rest with
      | Some g => Some g
      | None => grant_of x
      end
  end.

(** Milliseconds since the epoch at which the upstream stops honouring the
    token of a grant: the instant it was stored plus its lifetime. *)
Definition real_expiry (g : Z * token_data) : Z :=
  fst g + expires_in (snd g) * 1000.

Definition safety_margin : Z := 60 * 1000.

(** No cached token is still valid at the current clock reading: none is
    held, or the clock is not strictly before the recorded expiry. *)
Definition stale (w : World) : Prop :=
  forall tok expiry,
    accessToken w = Some tok -> tokenExpiry w = Some expiry ->
    ~ clock w < expiry.

(** The two cached variables describe the most recent grant. *)
Definition in_step (w : World) : Prop :=
  match last_grant (exchanges w) with
  | None => accessToken w = None /\ tokenExpiry w = None
  | Some (stored_at, data) =>
      accessToken w = Some (access_token data) /\
      tokenExpiry w = Some (stored_at + (expires_in data - 60) * 1000)
  end.

(** Replies of the token endpoint used in examples: one that grants [tok]
    for [lifetime] seconds, one that refuses with a status and a body. *)
Definition granted (tok : string) (lifetime : Z) : outcome :=
  Resolved {| ok := true; status := 200; text := "";
              json := Ok {| access_token := tok; expires_in := lifetime |} |}.

Definition refused (st : Z) (msg : string) : outcome :=
  Resolved {| ok := false; status := st; text := msg;
              json := Throw (Error "Unexpected token") |}.

Definition plain (s : string) : string := s.

(** A token endpoint that always answers after [elapsed] milliseconds. *)
Definition granting_net (elapsed lifetime : Z) : nat -> Z * outcome :=
  fun _ => (elapsed, granted "BQD-token" lifetime).

Definition refusing_net (elapsed : Z) : nat -> Z * outcome :=
  fun _ => (elapsed, refused 401 "invalid_client").

(** The process one second after start, and after a first call served by a
    round trip of 250 ms that granted an hour. *)
Definition cold : World := boot 1000.

Definition warm : World :=
  snd (getSpotifyToken (Some "id") (Some "secret") plain
         (granting_net 250 3600) cold).

End TokenCache.

(* ================================================================== *)
(** ** Response normalization in the catalog routes *)
(* ================================================================== *)

Module Catalog.
Import JS.

(** [e.k], [e[i]] and an optional chain [e?.rest] on an expression that may
    itself throw.  A nullish head short-circuits the whole chain. *)
Definition dot (e : result value) (k : string) : result value :=
  let* v := e in get v k.

Definition at_index (e : result value) (i : nat) : result value :=
  let* v := e in index v i.

Definition opt_chain (e : result value) (rest : value -> result value)
  : result value :=
  let* v := e in if nullish v then Ok Undefined else rest v.

Notation "e @. k" := (dot e k) (at level 25, left associativity) : js_scope.
Notation "e @# i" := (at_index e i) (at level 25, left associativity)
  : js_scope.

(** [x.artists.map(artist => artist.name).join(', ')] *)
Definition artist_names (x : result value) : result value :=
  let* artists := x @. "artists" in
  let* names := map artists (fun artist => get artist "name") in
  join names ", ".

(** [track.album?.images[i]?.url] *)
Definition track_image_url (track : result value) (i : nat) : result value :=
  opt_chain (track @. "album") (fun album =>
    opt_chain (Ok album @. "images" @# i) (fun image => get image "url")).

(** [album.images[i]?.url] *)
Definition album_image_url (album : value) (i : nat) : result value :=
  opt_chain (Ok album @. "images" @# i) (fun image => get image "url").

Definition track_coverArt (track : result value) : result value :=
  track_image_url track 2 ||| track_image_url track 1
    ||| track_image_url track 0.

Definition album_coverArt (album : value) : result value :=
  album_image_url album 2 ||| album_image_url album 1
    ||| album_image_url album 0.

(** The object literal shared by the three track routes; [track] stands for
    the expression [item.track] (featured tracks) or [track] (genre tracks,
    search), read again for every property as in the source. *)
Definition track_literal (track : result value) : result value :=
  let* id := track @. "id" in
  let* title := track @. "name" in
  let* artist := artist_names track in
  let* album := opt_chain (track @. "album") (fun a => get a "name") in
  let* coverArt := track_coverArt track in
  let* previewUrl := track @. "preview_url" in
  let* duration := track @. "duration_ms" in
  let* externalUrl := track @. "external_urls" @. "spotify" in
  Ok (Obj [("id", id); ("title", title); ("artist", artist);
           ("album", album); ("coverArt", coverArt);
           ("previewUrl", previewUrl); ("duration", duration);
           ("externalUrl", externalUrl)]).

(** The object literal of [/api/new-releases]. *)
Definition release_literal (album : value) : result value :=
  let* id := get album "id" in
  let* title := get album "name" in
  let* artist := artist_names (Ok album) in
  let* coverArt := album_coverArt album in
  let* externalUrl := Ok album @. "external_urls" @. "spotify" in
  let* releaseDate := get album "release_date" in
  let* totalTracks := get album "total_tracks" in
  Ok (Obj [("id", id); ("title", title); ("artist", artist);
           ("coverArt", coverArt); ("externalUrl", externalUrl);
           ("releaseDate", releaseDate); ("totalTracks", totalTracks)]).

(** [/api/featured-tracks]: [playlistTracks.items.filter(..).map(..)] *)
Definition featured_keep (item : value) : result value :=
  get item "track" &&& Ok item @. "track" @. "preview_url".

Definition featured_tracks (playlistTracks : value) : result value :=
  let* items := get playlistTracks "items" in
  let* kept := filter items featured_keep in
  map kept (fun item => track_literal (get item "track")).

(** [/api/genre-tracks]: [data.tracks.filter(..).map(..)] *)
Definition has_preview (track : value) : result value :=
  get track "preview_url".

Definition genre_tracks (data : value) : result value :=
  let* tracks := get data "tracks" in
  let* kept := filter tracks has_preview in
  map kept (fun track => track_literal (Ok track)).

(** [/api/search]: [data.tracks.items.filter(..).map(..)] *)
Definition search_tracks (data : value) : result value :=
  let* items := Ok data @. "tracks" @. "items" in
  let* kept := filter items has_preview in
  map kept (fun track => track_literal (Ok track)).

(** [/api/new-releases]: [data.albums.items.map(..)] *)
Definition new_releases (data : value) : result value :=
  let* items := Ok data @. "albums" @. "items" in
  map items release_literal.

(** An image descriptor that carries a URL. *)
Definition has_url (image : value) : Prop :=
  exists u, get image "url" = Ok (Str u) /\ u <> "".

(** The property names of a normalized track, in the order of the literal. *)
Definition track_keys : list string :=
  ["id"; "title"; "artist"; "album"; "coverArt"; "previewUrl"; "duration";
   "externalUrl"].

(** What a route answers once the upstream payload is in: [res.json(..)],
    or the [catch] branch with status 500 and a fixed message. *)
Record http_response : Type := {
  code : Z;
  payload : value
}.

Definition respond (failure : string) (r : result value) : http_response :=
  match r with
  | Ok v => {| code := 200; payload := wire v |}
  | Throw _ => {| code := 500; payload := Obj [("error", Str failure)] |}
  end.

Definition featured_tracks_response (playlistTracks : value) :=
  respond "Failed to fetch featured tracks" (featured_tracks playlistTracks).
Definition genre_tracks_response (data : value) :=
  respond "Failed to fetch genre tracks" (genre_tracks data).
Definition search_response (data : value) :=
  respond "Search failed" (search_tracks data).
Definition new_releases_response (data : value) :=
  respond "Failed to fetch new releases" (new_releases data).

End Catalog.

(* ================================================================== *)
(** ** The title entry of [extractMetadata] *)
(* ================================================================== *)

Module Extract.
Import JS Catalog.

(** [a ?? b] *)
Definition nullish_or (a b : result value) : result value :=
  let* x := a in if nullish x then b else Ok x.
Infix "???" := nullish_or (at level 50, left associativity) : js_scope.

(** [const c = meta.common ?? {}] *)
Definition common_tags (meta : value) : result value :=
  get meta "common" ??? Ok (Obj []).

(** [const f = probe?.format ?? meta.format ?? {}] *)
Definition format_info (probe meta : value) : result value :=
  opt_get probe "format" ??? get meta "format" ??? Ok (Obj []).

(** [title: c.title || f.tags?.title || "Untitled"] *)
Definition title_of (c f : value) : result value :=
  get c "title"
    ||| opt_chain (get f "tags") (fun tags => get tags "title")
    ||| Ok (Str "Untitled").

Definition extracted_title (probe meta : value) : result value :=
  let* c := common_tags meta in
  let* f := format_info probe meta in
  title_of c f.

End Extract.

(* ================================================================== *)
(** ** Sample data *)
(* ================================================================== *)

Module Samples.
Import JS Catalog.

Definition image (u : string) : value := Obj [("url", Str u)].

Definition album_X : value :=
  Obj [("id", Str "a1"); ("name", Str "X");
       ("artists", Arr [Obj [("name", Str "Y")]]);
       ("images", Arr [image "L"; image "M"; image "S"]);
       ("external_urls", Obj [("spotify", Str "https://open.spotify.com/album/a1")]);
       ("release_date", Str "2020-01-01");
       ("total_tracks", Num 10)].

Definition track (id : string) (name preview : value) : value :=
  Obj [("id", Str id); ("name", name);
       ("artists", Arr [Obj [("name", Str "Y")]; Obj [("name", Str "Z")]]);
       ("album", album_X);
       ("preview_url", preview);
       ("duration_ms", Num 215000);
       ("external_urls", Obj [("spotify", Str "https://open.spotify.com/track/t")])].

(** What [/api/new-releases] makes of [album_X]. *)
Definition normalized_X : value :=
  Obj [("id", Str "a1"); ("title", Str "X"); ("artist", Str "Y");
       ("coverArt", Str "S");
       ("externalUrl", Str "https://open.spotify.com/album/a1");
       ("releaseDate", Str "2020-01-01"); ("totalTracks", Num 10)].

Definition playable : value := track "t1" (Str "Song") (Str "https://p.scdn.co/mp3-preview/t1").
Definition silent : value := track "t2" (Str "Mute") Null.

(** What the track routes make of [playable]. *)
Definition normalized_playable : value :=
  Obj [("id", Str "t1"); ("title", Str "Song"); ("artist", Str "Y, Z");
       ("album", Str "X"); ("coverArt", Str "S");
       ("previewUrl", Str "https://p.scdn.co/mp3-preview/t1");
       ("duration", Num 215000);
       ("externalUrl", Str "https://open.spotify.com/track/t")].
Definition nameless : value :=
  Obj [("id", Str "t3");
       ("artists", Arr [Obj [("name", Str "Y")]]);
       ("preview_url", Str "https://p.scdn.co/mp3-preview/t3");
       ("duration_ms", Num 1000);
       ("external_urls", Obj [("spotify", Str "https://open.spotify.com/track/t3")])].

End Samples.

(* ================================================================== *)
(** ** The catalog proxy ([spotifyApiProxy]) and the routes *)
(* ================================================================== *)

Module Proxy.
Import JS TokenCache Catalog.

(** A settled [fetch] against the catalog API: [ok], [status] and what
    [response.json()] resolves to (it throws on a malformed body). *)
Record api_response : Type := {
  api_ok : bool;
  api_status : Z;
  api_json : result value
}.

Inductive api_outcome : Type :=
| Failed (e : exn)
| Answered (r : api_response).

(** One request to the catalog API: what was sent, the clock reading once
    the reply had been read, and the reply. *)
Record api_call : Type := {
  asked : request;
  answered_at : Z;
  answer : api_outcome
}.

(** The process: the token cache with its clock and console, and the
    requests made to the catalog API so far. *)
Record Server : Type := {
  cache : World;
  calls : list api_call
}.

Definition P (A : Type) : Type := Server -> result A * Server.

Definition pret {A} (a : A) : P A := fun s => (Ok a, s).
Definition pthrow {A} (e : exn) : P A := fun s => (Throw e, s).
Definition plift {A} (r : result A) : P A := fun s => (r, s).

Definition pbind {A B} (c : P A) (k : A -> P B) : P B :=
  fun s =>
    match c s with
    | (Ok a, s') => k a s'
    | (Throw e, s') => (Throw e, s')
    end.

Definition ptry {A} (c : P A) (handler : exn -> P A) : P A :=
  fun s =>
    match c s with
    | (Ok a, s') => (Ok a, s')
    | (Throw e, s') => handler e s'
    end.

(** A computation on the token cache, run inside the process. *)
Definition on_cache {A} (c : M A) : P A :=
  fun s =>
    let '(r, w') := c (cache s) in
    (r, {| cache := w'; calls := calls s |}).

Declare Scope server_scope.
Delimit Scope server_scope with server.
Notation "x <- c ;; k" := (pbind c (fun x => k))
  (at level 100, c at next level, right associativity) : server_scope.
Notation "c ;; k" := (pbind c (fun _ => k))
  (at level 100, right associativity) : server_scope.
Open Scope server_scope.

(** [res.status(status).json(body)] *)
Definition json_reply (status : Z) (body : value) : http_response :=
  {| code := status; payload := wire body |}.

(** [v.slice(from, to)] with literal bounds: arrays and strings have the
    method, nothing else in a JSON document does. *)
Definition slice (v : value) (from to : nat) : result value :=
  match v with
  | Arr elems => Ok (Arr (firstn (to - from) (skipn from elems)))
  | Str s => Ok (Str (substring from (to - from) s))
  | _ => Throw (TypeError "slice")
  end.

(** [v.slice(from)] *)
Definition slice_from (v : value) (from : nat) : result value :=
  match v with
  | Arr elems => Ok (Arr (skipn from elems))
  | Str s => Ok (Str (substring from (String.length s - from) s))
  | _ => Throw (TypeError "slice")
  end.

(** [v.charAt(i)]: only strings have the method. *)
Definition charAt (v : value) (i : nat) : result string :=
  match v with
  | Str s => Ok (substring i 1 s)
  | _ => Throw (TypeError "charAt")
  end.

(** Array.prototype.map with a callback that takes the index too. *)
Fixpoint mapiM (f : nat -> value -> result value) (i : nat)
    (xs : list value) : result (list value) :=
  match xs with
  | [] => Ok []
  | x :: rest =>
      let* y := f i x in
      let* rest' := mapiM f (S i) rest in
      Ok (y :: rest')
  end.

Definition mapi (v : value) (f : nat -> value -> result value)
  : result value :=
  match v with
  | Arr elems => let* ys := mapiM f 0 elems in Ok (Arr ys)
  | _ => Throw (TypeError "map")
  end.

(** [a + b] on two strings. *)
Definition concat_str (a b : value) : value :=
  Str (to_string a ++ to_string b).

Section Routes.

Variable clientId clientSecret : option string.
Variable base64 : string -> string.
Variable net : nat -> Z * outcome.

(** The catalog API and the network path to it: for the n-th request of
    the process, how many milliseconds pass until the reply has been read,
    and the reply. *)
Variable api : nat -> request -> Z * api_outcome.

(** [encodeURIComponent] and [String.prototype.toUpperCase]. *)
Variable encodeURIComponent : string -> string.
Variable toUpperCase : string -> string.

(** [await fetch(url, {headers})] against the catalog API. *)
Definition api_fetch (rq : request) : P api_response := fun s =>
  let '(elapsed, o) := api (List.length (calls s)) rq in
  let t := clock (cache s) + elapsed in
  let s' := {| cache := at_time t (cache s);
               calls := calls s
                          ++ [{| asked := rq; answered_at := t;
                                 answer := o |}] |} in
  match o with
  | Failed e => (Throw e, s')
  | Answered r => (Ok r, s')
  end.

(** The request [spotifyApiProxy] makes for [endpoint] with [token]. *)
Definition api_request (endpoint token : string) : request :=
  {| url := "https://api.spotify.com/v1" ++ endpoint;
     method := "GET";
     headers := [("Authorization", "Bearer " ++ token)];
     body := "" |}.

Definition spotifyApiProxy (endpoint : string) : P value :=
  ptry
    (token <- on_cache (getSpotifyToken clientId clientSecret base64 net) ;;
     response <- api_fetch (api_request endpoint token) ;;
     (if negb (api_ok response)
      then pthrow (Error ("Spotify API error: "
                          ++ of_Z (api_status response)))
      else pret tt) ;;
     plift (api_json response))
    (fun error => on_cache (console_error error) ;; pthrow error).

(** The [catch] clause of a route: log, answer 500 with a fixed message. *)
Definition fail_with (message : string) (error : exn) : P http_response :=
  on_cache (console_error error) ;;
  pret (json_reply 500 (Obj [("error", Str message)])).

(** The shape the routes share once their parameters are read: one call
    of the proxy, a normalization, the answer; and the [catch]. *)
Definition fetch_and_answer (endpoint : string)
    (normalize : value -> result value) (message : string)
  : P http_response :=
  ptry
    (data <- spotifyApiProxy endpoint ;;
     out <- plift (normalize data) ;;
     pret (json_reply 200 out))
    (fail_with message).

(** [x = 20] in a destructuring pattern: the default applies to
    [undefined] only. *)
Definition default_to (d v : value) : value :=
  match v with
  | Undefined => d
  | _ => v
  end.

(** [GET /api/featured-tracks] *)
Definition featured_tracks_route (query : value) : P http_response :=
  ptry
    (limit <- plift (get query "limit" ||| Ok (Num 50)) ;;
     featuredData <- spotifyApiProxy "/browse/featured-playlists?limit=1" ;;
     count <- plift (Ok featuredData @. "playlists" @. "items" @. "length") ;;
     if negb (truthy count)
     then pret (json_reply 404
                  (Obj [("error", Str "No featured playlists available")]))
     else
       playlistId <-
         plift (Ok featuredData @. "playlists" @. "items" @# 0 @. "id") ;;
       playlistTracks <-
         spotifyApiProxy ("/playlists/" ++ to_string playlistId
                          ++ "/tracks?limit=" ++ to_string limit) ;;
       tracks <- plift (featured_tracks playlistTracks) ;;
       pret (json_reply 200 tracks))
    (fail_with "Failed to fetch featured tracks").

(** One entry of [/api/genres]:
    [{id, name: first letter in upper case, cover}] *)
Definition genre_literal (index : nat) (genreName : value) : result value :=
  let* first := charAt genreName 0 in
  let* tail := slice_from genreName 1 in
  Ok (Obj [("id", genreName);
           ("name", concat_str (Str (toUpperCase first)) tail);
           ("cover",
            Str ("https://source.unsplash.com/random/300x300/?"
                 ++ to_string genreName ++ ",music&" ++ of_nat index))]).

(** [data.genres.slice(0, 12).map((genreName, index) => ..)] *)
Definition genres_of (data : value) : result value :=
  let* genres := get data "genres" in
  let* first := slice genres 0 12 in
  mapi first genre_literal.

(** [GET /api/genres] *)
Definition genres_route : P http_response :=
  ptry
    (data <- spotifyApiProxy "/recommendations/available-genre-seeds" ;;
     genres <- plift (genres_of data) ;;
     pret (json_reply 200 genres))
    (fail_with "Failed to fetch genres").

(** [GET /api/genre-tracks] *)
Definition genre_tracks_route (query : value) : P http_response :=
  ptry
    (genre <- plift (get query "genre") ;;
     limit <- plift (let* l := get query "limit" in Ok (default_to (Num 20) l)) ;;
     if negb (truthy genre)
     then pret (json_reply 400
                  (Obj [("error", Str "Genre parameter is required")]))
     else
       data <- spotifyApiProxy ("/recommendations?seed_genres="
                                ++ to_string genre
                                ++ "&limit=" ++ to_string limit) ;;
       tracks <- plift (genre_tracks data) ;;
       pret (json_reply 200 tracks))
    (fail_with "Failed to fetch genre tracks").

(** [GET /api/search] *)
Definition search_route (query : value) : P http_response :=
  ptry
    (q <- plift (get query "q") ;;
     limit <- plift (let* l := get query "limit" in Ok (default_to (Num 20) l)) ;;
     if negb (truthy q)
     then pret (json_reply 400
                  (Obj [("error", Str "Search query parameter is required")]))
     else
       data <- spotifyApiProxy ("/search?q="
                                ++ encodeURIComponent (to_string q)
                                ++ "&type=track&limit=" ++ to_string limit) ;;
       tracks <- plift (search_tracks data) ;;
       pret (json_reply 200 tracks))
    (fail_with "Search failed").

(** [GET /api/new-releases] *)
Definition new_releases_route (query : value) : P http_response :=
  ptry
    (limit <- plift (get query "limit" ||| Ok (Num 20)) ;;
     data <- spotifyApiProxy ("/browse/new-releases?limit="
                              ++ to_string limit) ;;
     releases <- plift (new_releases data) ;;
     pret (json_reply 200 releases))
    (fail_with "Failed to fetch new releases").

End Routes.

(** A catalog API that always answers [data] with status 200 after
    [elapsed] milliseconds, and one that always refuses. *)
Definition answering (elapsed : Z) (data : value)
  : nat -> request -> Z * api_outcome :=
  fun _ _ =>
    (elapsed,
     Answered {| api_ok := true; api_status := 200; api_json := Ok data |}).

Definition refusing (elapsed st : Z) : nat -> request -> Z * api_outcome :=
  fun _ _ =>
    (elapsed,
     Answered {| api_ok := false; api_status := st;
                 api_json := Ok (Obj [("error", Str "upstream detail")]) |}).

(** The cache after [console.error(error)]. *)
Definition logged (e : exn) (w : World) : World := snd (console_error e w).

(** The process when a request arrives at clock reading [t]. *)
Definition arrive (t : Z) (s : Server) : Server :=
  {| cache := at_time t (cache s); calls := calls s |}.

(** The process at start, and once a token has been granted. *)
Definition started : Server := {| cache := cold; calls := [] |}.
Definition serving : Server := {| cache := warm; calls := [] |}.

(** Upper case of the letters a to z, for examples. *)
Definition upper_char (c : Ascii.ascii) : Ascii.ascii :=
  let n := Ascii.nat_of_ascii c in
  if ((97 <=? n) && (n <=? 122))%nat then Ascii.ascii_of_nat (n - 32) else c.

Fixpoint upper (s : string) : string :=
  match s with
  | EmptyString => EmptyString
  | String c rest => String (upper_char c) (upper rest)
  end.

(** Spaces as %20 and nothing else, in place of [encodeURIComponent] in
    examples. *)
Fixpoint encode_spaces (s : string) : string :=
  match s with
  | EmptyString => EmptyString
  | String c rest =>
      if Ascii.eqb c (Ascii.ascii_of_nat 32) then "%20" ++ encode_spaces rest
      else String c (encode_spaces rest)
  end.

(** Upstream payloads for examples. *)
Definition featured_playlists (items : list value) : value :=
  Obj [("playlists", Obj [("items", Arr items)])].

Definition playlist_37i9 : value :=
  Obj [("id", Str "37i9dQZF1DXcBWIGoYBM5M"); ("name", Str "Today's Top Hits")].

Definition playlist_tracks : value :=
  Obj [("items", Arr [Obj [("track", Samples.playable)];
                      Obj [("track", Samples.silent)]])].

(** A catalog API that lists one featured playlist on the first request of
    the process and the tracks of a playlist on the later ones, 40 ms each. *)
Definition catalog (n : nat) (rq : request) : Z * api_outcome :=
  (40,
   Answered {| api_ok := true; api_status := 200;
               api_json :=
                 Ok (match n with
                     | O => featured_playlists [playlist_37i9]
                     | S _ => playlist_tracks
                     end) |}).

Definition genre_seeds : value :=
  Obj [("genres",
        Arr [Str "acoustic"; Str "afrobeat"; Str "alt-rock"; Str "ambient";
             Str "blues"; Str "chill"; Str "classical"; Str "club";
             Str "country"; Str "dance"; Str "disco"; Str "dub";
             Num 13; Str "folk"])].

End Proxy.

(* ================================================================== *)
(** ** [extractMetadata] and the upload route *)
(* ================================================================== *)

Module Metadata.
Import JS Catalog Extract.

(** [Array.isArray(v)] *)
Definition is_array (v : value) : bool :=
  match v with
  | Arr _ => true
  | _ => false
  end.

(** [Array.isArray(v) && v.length > 0] *)
Definition has_items (v : value) : bool :=
  match v with
  | Arr (_ :: _) => true
  | _ => false
  end.

(** The string has no occurrence of the character. *)
Fixpoint free_of (sep : Ascii.ascii) (s : string) : bool :=
  match s with
  | EmptyString => true
  | String c rest => negb (Ascii.eqb c sep) && free_of sep rest
  end.

(** [s.split("/")]: the pieces between the separators, at least one. *)
Fixpoint split_on (sep : Ascii.ascii) (s : string) : list string :=
  match s with
  | EmptyString => [EmptyString]
  | String c rest =>
      if Ascii.eqb c sep then EmptyString :: split_on sep rest
      else
        match split_on sep rest with
        | [] => [String c EmptyString]
        | piece :: pieces => String c piece :: pieces
        end
  end.

Definition slash : Ascii.ascii := Ascii.ascii_of_nat 47.

(** [v.split("/")]: only strings have the method. *)
Definition split_slash (v : value) : result value :=
  match v with
  | Str s => Ok (Arr (List.map Str (split_on slash s)))
  | _ => Throw (TypeError "split")
  end.

(** [const stream0 = probe?.streams?.[0] ?? {}] *)
Definition stream_info (probe : value) : result value :=
  opt_chain (opt_get probe "streams") (fun streams => index streams 0)
    ??? Ok (Obj []).

(** [artist: c.artist || "Unknown Artist"] *)
Definition artist_of (c : value) : result value :=
  get c "artist" ||| Ok (Str "Unknown Artist").

(** [album: c.album || "Unknown Album"] *)
Definition album_of (c : value) : result value :=
  get c "album" ||| Ok (Str "Unknown Album").

(** [genre: Array.isArray(c.genre) ? c.genre[0] : c.genre || "Unknown"];
    the conditional binds weaker than [||]. *)
Definition genre_of (c : value) : result value :=
  let* genre := get c "genre" in
  if is_array genre then Ok c @. "genre" @# 0
  else get c "genre" ||| Ok (Str "Unknown").

(** [year: c.year || f.tags?.date || null] *)
Definition year_of (c f : value) : result value :=
  get c "year"
    ||| opt_chain (get f "tags") (fun tags => get tags "date")
    ||| Ok Null.

(** [codec: stream0.codec_name || meta.format?.codec || "Unknown"] *)
Definition codec_of (stream0 meta : value) : result value :=
  get stream0 "codec_name"
    ||| opt_chain (get meta "format") (fun format => get format "codec")
    ||| Ok (Str "Unknown").

(** [channels: stream0.channels || meta.format?.numberOfChannels] *)
Definition channels_of (stream0 meta : value) : result value :=
  get stream0 "channels"
    ||| opt_chain (get meta "format")
          (fun format => get format "numberOfChannels").

(** [formatName: f.format_long_name || meta.format?.container] *)
Definition formatName_of (f meta : value) : result value :=
  get f "format_long_name"
    ||| opt_chain (get meta "format") (fun format => get format "container").

(** [const ext = pic.format?.split("/")[1] || "jpg"] *)
Definition cover_ext (pic : value) : result value :=
  opt_chain (get pic "format")
    (fun format => let* pieces := split_slash format in index pieces 1)
    ||| Ok (Str "jpg").

(** [`cover_${Date.now()}.${ext}`] *)
Definition cover_name (now : Z) (ext : value) : string :=
  "cover_" ++ of_Z now ++ "." ++ to_string ext.

(** The file system as the code uses it (the files and what they hold), the
    reading [Date.now()] gives, and what [console.error] printed. *)
Record Disk : Type := {
  files : list (string * value);
  now : Z;
  printed : list exn
}.

Fixpoint remove (path : string) (fs : list (string * value))
  : list (string * value) :=
  match fs with
  | [] => []
  | (p, x) :: rest =>
      if (p =? path)%string then remove path rest
      else (p, x) :: remove path rest
  end.

Fixpoint content (fs : list (string * value)) (path : string)
  : option value :=
  match fs with
  | [] => None
  | (p, x) :: rest => if (p =? path)%string then Some x else content rest path
  end.

Definition D (A : Type) : Type := Disk -> result A * Disk.

Definition dret {A} (a : A) : D A := fun d => (Ok a, d).
Definition dthrow {A} (e : exn) : D A := fun d => (Throw e, d).
Definition dlift {A} (r : result A) : D A := fun d => (r, d).

Definition dbind {A B} (c : D A) (k : A -> D B) : D B :=
  fun d =>
    match c d with
    | (Ok a, d') => k a d'
    | (Throw e, d') => (Throw e, d')
    end.

Definition dtry {A} (c : D A) (handler : exn -> D A) : D A :=
  fun d =>
    match c d with
    | (Ok a, d') => (Ok a, d')
    | (Throw e, d') => handler e d'
    end.

Declare Scope disk_scope.
Delimit Scope disk_scope with disk.
Notation "x <- c ;; k" := (dbind c (fun x => k))
  (at level 100, c at next level, right associativity) : disk_scope.
Notation "c ;; k" := (dbind c (fun _ => k))
  (at level 100, right associativity) : disk_scope.
Open Scope disk_scope.

Definition Date_now : D Z := fun d => (Ok (now d), d).

Definition print_error (e : exn) : D unit := fun d =>
  (Ok tt, {| files := files d; now := now d; printed := printed d ++ [e] |}).

(** [await fs.unlink(path).catch(() => {})]: the file is gone afterwards;
    a rejection (no such file) is swallowed. *)
Definition unlink_quietly (path : string) : D unit := fun d =>
  (Ok tt,
   {| files := remove path (files d); now := now d; printed := printed d |}).

(** A computation that leaves the clock reading and the console alone and
    does not touch the files [untouched] holds of, when started at clock
    reading [stamp]. *)
Definition steady (stamp : Z) (untouched : string -> Prop) {A} (c : D A)
  : Prop :=
  forall d,
    now d = stamp ->
    now (snd (c d)) = stamp
    /\ printed (snd (c d)) = printed d
    /\ forall p, untouched p ->
         content (files (snd (c d))) p = content (files d) p.

Section Extraction.

(** [path.join(process.cwd(), "covers")] and [path.join]. *)
Variable COVER_DIR : string.
Variable path_join : string -> string -> string.

(** The collaborators: whether [fs.mkdir] and [fs.writeFile] reject, and
    what [ffprobe] and [mm.parseFile] make of the file. *)
Variable mkdir_error : string -> option exn.
Variable write_error : string -> value -> option exn.
Variable ffprobe : string -> result value.
Variable parseFile : string -> result value.

(** The entries [bitrate], [duration], [sampleRate] and [size].  They go
    through [parseInt], [Math.round], [toFixed] and [Number], whose
    results (fractions, NaN) are not values of this model: they are taken
    as given, from [f], [stream0] and [meta]. *)
Variable bitrate_of duration_of : value -> value -> result value.
Variable sampleRate_of : value -> value -> result value.
Variable size_of : value -> result value.

(** [await fs.mkdir(COVER_DIR, { recursive: true })] *)
Definition mkdir (path : string) : D unit := fun d =>
  match mkdir_error path with
  | Some e => (Throw e, d)
  | None => (Ok tt, d)
  end.

(** [await fs.writeFile(path, data)] *)
Definition writeFile (path : string) (data : value) : D unit := fun d =>
  match write_error path data with
  | Some e => (Throw e, d)
  | None =>
      (Ok tt,
       {| files := (path, data) :: remove path (files d);
          now := now d; printed := printed d |})
  end.

(** The embedded picture, if any, saved under [COVER_DIR]; the value of
    [coverUrl]. *)
Definition save_cover (c : value) : D value :=
  picture <- dlift (get c "picture") ;;
  if has_items picture
  then
    pic <- dlift (Ok c @. "picture" @# 0) ;;
    ext <- dlift (cover_ext pic) ;;
    stamp <- Date_now ;;
    let fileName := cover_name stamp ext in
    let coverPath := path_join COVER_DIR fileName in
    data <- dlift (get pic "data") ;;
    writeFile coverPath data ;;
    dret (Str ("/covers/" ++ fileName))
  else dret Null.

(** The object literal [extracted]. *)
Definition extracted_of (c f stream0 meta coverUrl : value) : result value :=
  let* title := title_of c f in
  let* artist := artist_of c in
  let* album := album_of c in
  let* genre := genre_of c in
  let* year := year_of c f in
  let* bitrate := bitrate_of f meta in
  let* duration := duration_of f meta in
  let* codec := codec_of stream0 meta in
  let* sampleRate := sampleRate_of stream0 meta in
  let* channels := channels_of stream0 meta in
  let* formatName := formatName_of f meta in
  let* size := size_of f in
  Ok (Obj [("title", title); ("artist", artist); ("album", album);
           ("genre", genre); ("year", year); ("bitrate", bitrate);
           ("duration", duration); ("codec", codec);
           ("sampleRate", sampleRate); ("channels", channels);
           ("formatName", formatName); ("size", size);
           ("coverUrl", coverUrl)]).

Definition extractMetadata (filePath : string) : D value :=
  dtry
    (mkdir COVER_DIR ;;
     probe <- dlift (ffprobe filePath) ;;
     meta <- dlift (parseFile filePath) ;;
     c <- dlift (common_tags meta) ;;
     f <- dlift (format_info probe meta) ;;
     stream0 <- dlift (stream_info probe) ;;
     coverUrl <- save_cover c ;;
     extracted <- dlift (extracted_of c f stream0 meta coverUrl) ;;
     unlink_quietly filePath ;;
     dret extracted)
    (fun error =>
       print_error error ;;
       unlink_quietly filePath ;;
       dthrow (Error "Failed to extract metadata")).

(** The files a run on [filePath] at clock reading [stamp] may not touch:
    all but the upload and a cover named after the reading. *)
Definition spared (filePath : string) (stamp : Z) (p : string) : Prop :=
  p <> filePath
  /\ forall ext, p <> path_join COVER_DIR (cover_name stamp ext).

(** [error.message] *)
Variable type_error_message : string -> string.

Definition message_of (e : exn) : string :=
  match e with
  | Error message => message
  | TypeError reading => type_error_message reading
  end.

(** [POST /api/extract-metadata]; [file] is the path under which the
    upload middleware stored the file, if the request carried one. *)
Definition extract_metadata_route (file : option string) : D http_response :=
  dtry
    (match file with
     | None =>
         dret {| code := 400;
                 payload := wire (Obj [("success", Bool false);
                                      ("message", Str "No file uploaded")]) |}
     | Some filePath =>
         metadata <- extractMetadata filePath ;;
         dret {| code := 200;
                 payload := wire (Obj [("success", Bool true);
                                      ("metadata", metadata)]) |}
     end)
    (fun error =>
       print_error error ;;
       dret {| code := 500;
               payload := wire (Obj [("success", Bool false);
                                    ("message", Str (message_of error))]) |}).

End Extraction.

(** An upload for examples: a tagged MP3 with an embedded PNG, no genre
    listed, on a disk that already holds another upload. *)
Definition join_posix (dir name : string) : string := dir ++ "/" ++ name.

Definition never {A B} (_ : A) : option B := None.
Definition never2 {A B C} (_ : A) (_ : B) : option C := None.

Definition probe_mp3 (path : string) : result value :=
  Ok (Obj [("format",
            Obj [("format_long_name", Str "MP2/3 (MPEG audio layer 2/3)");
                 ("tags", Obj [("date", Str "1959")])]);
           ("streams",
            Arr [Obj [("codec_name", Str "mp3"); ("channels", Num 2)]])]).

Definition png_picture : value :=
  Obj [("format", Str "image/png"); ("data", Str "PNG-bytes")].

Definition tags_mp3 (path : string) : result value :=
  Ok (Obj [("common",
            Obj [("title", Str "Take Five"); ("artist", Str "");
                 ("genre", Arr []); ("picture", Arr [png_picture])]);
           ("format", Obj [("container", Str "MPEG")])]).

Definition unread (_ _ : value) : result value := Ok Null.
Definition unread1 (_ : value) : result value := Ok Null.

Definition sample_disk : Disk :=
  {| files := [("uploads/3f2a", Str "MP3-bytes");
               ("uploads/77c0", Str "other upload")];
     now := 1700000000000;
     printed := [] |}.

(** What [extractMetadata] makes of it. *)
Definition sample_metadata : value :=
  Obj [("title", Str "Take Five"); ("artist", Str "Unknown Artist");
       ("album", Str "Unknown Album"); ("genre", Undefined);
       ("year", Str "1959"); ("bitrate", Null); ("duration", Null);
       ("codec", Str "mp3"); ("sampleRate", Null); ("channels", Num 2);
       ("formatName", Str "MP2/3 (MPEG audio layer 2/3)"); ("size", Null);
       ("coverUrl", Str "/covers/cover_1700000000000.png")].

Definition extract_sample : result value * Disk :=
  extractMetadata "/app/covers" join_posix never never2 probe_mp3 tags_mp3
    unread unread unread unread1 "uploads/3f2a" sample_disk.

End Metadata.

(* ================================================================== *)
(** ** Properties of the token cache *)
(* ================================================================== *)

Module TokenCacheFacts.
Import JS TokenCache.

Lemma app_one_neq {A} (l : list A) (x : A) : l <> (l ++ [x])%list.
Proof.
  intros H. apply (f_equal (@List.length A)) in H.
  rewrite length_app in H. simpl in H. lia.
Qed.

Lemma app_one_inj {A} (l : list A) (x y : A) :
  (l ++ [x] = l ++ [y])%list -> x = y.
Proof.
  intros H. apply app_inv_head in H. congruence.
Qed.

Lemma last_grant_snoc log x :
  last_grant (log ++ [x])%list
  = match grant_of x with
    | Some g => Some g
    | None => last_grant log
    end.
Proof.
  induction log as [|y log IH]; simpl.
  - destruct (grant_of x); reflexivity.
  - rewrite IH. destruct (grant_of x); [reflexivity|].
    destruct (last_grant log); reflexivity.
Qed.

Lemma truthy_Str s : s <> "" -> truthy (Str s) = true.
Proof.
  intros Hs. simpl. apply negb_true_iff, String.eqb_neq. exact Hs.
Qed.

Lemma stale_cache_invalid w : stale w -> cache_valid w = false.
Proof.
  unfold stale, cache_valid. intros Hs.
  destruct (accessToken w) as [tok|]; [|reflexivity].
  destruct (tokenExpiry w) as [expiry|]; [|apply andb_false_r].
  destruct (Z.ltb_spec (clock w) expiry) as [Hlt|Hge].
  - exfalso. exact (Hs tok expiry eq_refl eq_refl Hlt).
  - rewrite !andb_false_r. reflexivity.
Qed.

Lemma invalid_stays_invalid w t :
  cache_valid w = false -> clock w <= t -> cache_valid (at_time t w) = false.
Proof.
  unfold cache_valid, at_time; cbn [accessToken tokenExpiry clock].
  destruct (accessToken w) as [tok|]; [|reflexivity].
  destruct (truthy (Str tok)); [|reflexivity].
  destruct (tokenExpiry w) as [expiry|]; [|reflexivity].
  destruct (truthy (Num expiry)); [|reflexivity].
  cbn [andb]. rewrite !Z.ltb_ge. lia.
Qed.

Section Facts.

Variable clientId clientSecret : option string.
Variable base64 : string -> string.
Variable net : nat -> Z * outcome.

Local Abbreviation getToken :=
  (getSpotifyToken clientId clientSecret base64 net).
Local Abbreviation the_request := (token_request clientId clientSecret base64).
Local Abbreviation refresh' := (refresh clientId clientSecret base64 net).

Lemma miss_refreshes w : cache_valid w = false -> getToken w = refresh' w.
Proof.
  unfold getSpotifyToken. intros ->. reflexivity.
Qed.

(** On a miss with both credentials set, exactly one round trip is made,
    whatever comes back. *)
Lemma miss_sends w :
  cache_valid w = false -> configured clientId clientSecret ->
  exchanges (snd (getToken w))
  = (exchanges w
      ++ [{| sent := the_request;
             finished_at := clock w + fst (net (List.length (exchanges w)));
             got := snd (net (List.length (exchanges w))) |}])%list.
Proof.
  intros Hmiss [Hid Hsecret]. rewrite (miss_refreshes w Hmiss).
  unfold refresh, report, store_reply, try_catch, mbind, fetch, settle.
  rewrite Hid, Hsecret. simpl.
  destruct (net (List.length (exchanges w))) as [elapsed [e|r]]; simpl.
  - reflexivity.
  - destruct (ok r); simpl.
    + destruct (json r); reflexivity.
    + reflexivity.
Qed.

(** A granted exchange: the run of [refresh] written out. *)
Lemma refresh_granted w elapsed r data :
  configured clientId clientSecret ->
  net (List.length (exchanges w)) = (elapsed, Resolved r) ->
  ok r = true -> json r = Ok data ->
  refresh' w
  = (Ok (access_token data),
     {| accessToken := Some (access_token data);
        tokenExpiry :=
          Some (clock w + elapsed + (expires_in data - 60) * 1000);
        clock := clock w + elapsed;
        exchanges :=
          exchanges w ++ [{| sent := the_request;
                             finished_at := clock w + elapsed;
                             got := Resolved r |}];
        console := console w |}).
Proof.
  intros [Hid Hsecret] Hnet Hok Hjson.
  unfold refresh, report, store_reply, try_catch, mbind, fetch, settle.
  rewrite Hid, Hsecret. cbn [negb orb]. rewrite Hnet. simpl.
  rewrite Hok. simpl. unfold lift. rewrite Hjson. reflexivity.
Qed.

(** With both credentials set, the [try] block of a call served in one
    piece is a resumption at the instant the network answers. *)
Lemma refresh_as_resume w :
  configured clientId clientSecret ->
  refresh' w
  = resume clientId clientSecret base64
      (clock w + fst (net (List.length (exchanges w))))
      (snd (net (List.length (exchanges w)))) w.
Proof.
  intros [Hid Hsecret]. unfold refresh, resume, fetch.
  rewrite Hid, Hsecret. cbn [negb orb]. unfold try_catch, mbind.
  destruct (net (List.length (exchanges w))) as [elapsed o]. reflexivity.
Qed.

Lemma resume_keeps_in_step t o w :
  in_step w -> in_step (snd (resume clientId clientSecret base64 t o w)).
Proof.
  intros Hw. unfold resume, report, store_reply, try_catch, mbind, settle.
  destruct o as [e|r]; simpl.
  - unfold in_step; simpl. rewrite last_grant_snoc. exact Hw.
  - destruct (ok r) eqn:Hok; simpl.
    + destruct (json r) as [data|e] eqn:Hjson; simpl.
      * unfold in_step; simpl. rewrite last_grant_snoc.
        unfold grant_of; simpl. rewrite Hok, Hjson. split; reflexivity.
      * unfold in_step; simpl. rewrite last_grant_snoc.
        unfold grant_of; simpl. rewrite Hok, Hjson. exact Hw.
    + unfold in_step; simpl. rewrite last_grant_snoc.
      unfold grant_of; simpl. rewrite Hok. exact Hw.
Qed.

(** A resumption that returns a token has just stored it. *)
Lemma resume_returns_fresh t o w tok w' :
  resume clientId clientSecret base64 t o w = (Ok tok, w') ->
  exists g,
    last_grant (exchanges w') = Some g /\
    tok = access_token (snd g) /\
    List.length (exchanges w') = S (List.length (exchanges w)) /\
    fst g = clock w' /\
    (clock w' + safety_margin <= real_expiry g <-> 60 <= expires_in (snd g)).
Proof.
  unfold resume, report, store_reply, try_catch, mbind, settle.
  destruct o as [e|r]; simpl; [discriminate|].
  destruct (ok r) eqn:Hok; simpl; [|discriminate].
  destruct (json r) as [data|e] eqn:Hjson; simpl; [|discriminate].
  intros [= <- <-]. simpl.
  exists (t, data). rewrite last_grant_snoc.
  unfold grant_of; simpl. rewrite Hok, Hjson.
  unfold real_expiry, safety_margin; simpl.
  rewrite length_app; simpl.
  repeat split; try lia.
Qed.

Lemma call_keeps_in_step w : in_step w -> in_step (snd (getToken w)).
Proof.
  intros Hw. unfold getSpotifyToken.
  assert (Hr : in_step (snd (refresh' w))).
  { destruct (truthy (env_value clientId)) eqn:Hid;
      [destruct (truthy (env_value clientSecret)) eqn:Hsecret|].
    - rewrite refresh_as_resume by (split; assumption).
      apply resume_keeps_in_step. exact Hw.
    - unfold refresh, report, try_catch, mbind. rewrite Hid, Hsecret.
      exact Hw.
    - unfold refresh, report, try_catch, mbind. rewrite Hid. exact Hw. }
  destruct (cache_valid w); [|exact Hr].
  destruct (accessToken w); [exact Hw|exact Hr].
Qed.

Lemma reachable_in_step w :
  reachable clientId clientSecret base64 net w -> in_step w.
Proof.
  induction 1 as [t|w t Hreach IH|w t o Hconf Hreach IH].
  - unfold in_step; simpl. split; reflexivity.
  - apply call_keeps_in_step. exact IH.
  - apply resume_keeps_in_step. exact IH.
Qed.

(** C1. A cache that holds a token and an expiry, the expiry strictly after
    the current clock reading, serves that token unchanged; the world is
    left as it was, so no round trip to the token endpoint is made and
    nothing is stored.  To hold a token is, as the guard reads it, to hold a
    non-empty string; to hold an expiry is to hold a number other than 0
    (with a clock that counts from the epoch an expiry strictly after the
    current reading is never 0). *)
Theorem cached_token_served w tok expiry :
  accessToken w = Some tok -> tok <> "" ->
  tokenExpiry w = Some expiry -> expiry <> 0 ->
  clock w < expiry ->
  getSpotifyToken clientId clientSecret base64 net w = (Ok tok, w).
Proof.
  intros Htok Hne Hexp Hnz Hlt.
  unfold getSpotifyToken, cache_valid. rewrite Htok, Hexp.
  rewrite (truthy_Str tok Hne). simpl.
  replace (expiry =? 0) with false by (symmetry; apply Z.eqb_neq; lia).
  replace (clock w <? expiry) with true by (symmetry; apply Z.ltb_lt; lia).
  reflexivity.
Qed.

(** C2 (amended). On a call that finds no valid cached token, with both
    credentials set and a granting reply, exactly one round trip is made,
    the granted token is stored and returned, and the stored expiry is the
    clock reading taken when the reply is stored (the call time plus the
    duration of the round trip) plus the lifetime less 60 seconds.  Any
    call at or after that expiry makes a new round trip; with a lifetime of
    3600 seconds stored at T the expiry is T + 3540 s and a call at
    T + 3541 s refreshes. *)
Theorem refresh_stores_grant w id secret elapsed r data :
  stale w ->
  clientId = Some id -> id <> "" ->
  clientSecret = Some secret -> secret <> "" ->
  net (List.length (exchanges w)) = (elapsed, Resolved r) ->
  ok r = true -> json r = Ok data ->
  let stored_at := clock w + elapsed in
  let w' := snd (getToken w) in
  fst (getToken w) = Ok (access_token data) /\
  exchanges w'
  = (exchanges w ++ [{| sent := the_request; finished_at := stored_at;
                        got := Resolved r |}])%list /\
  accessToken w' = Some (access_token data) /\
  tokenExpiry w' = Some (stored_at + (expires_in data - 60) * 1000) /\
  (forall t, stored_at + (expires_in data - 60) * 1000 <= t ->
     List.length (exchanges (snd (getToken (at_time t w'))))
     = S (List.length (exchanges w'))) /\
  (expires_in data = 3600 ->
     tokenExpiry w' = Some (stored_at + 3540 * 1000) /\
     List.length
       (exchanges (snd (getToken (at_time (stored_at + 3541 * 1000) w'))))
     = S (List.length (exchanges w'))).
Proof.
  intros Hstale Hid Hidne Hsec Hsecne Hnet Hok Hjson stored_at w'.
  assert (Hconf : configured clientId clientSecret).
  { unfold configured. rewrite Hid, Hsec.
    split; apply truthy_Str; assumption. }
  assert (Hrun : getToken w = refresh' w)
    by (apply miss_refreshes, stale_cache_invalid, Hstale).
  rewrite (refresh_granted w elapsed r data Hconf Hnet Hok Hjson) in Hrun.
  assert (Hlater : forall t, stored_at + (expires_in data - 60) * 1000 <= t ->
            List.length (exchanges (snd (getToken (at_time t w'))))
            = S (List.length (exchanges w'))).
  { intros t Ht. rewrite miss_sends; [ | | exact Hconf].
    - rewrite length_app. simpl. lia.
    - apply stale_cache_invalid. intros tok expiry Htok Hexp.
      subst w'. rewrite Hrun in Hexp. simpl in Hexp.
      injection Hexp as <-. simpl. fold stored_at. lia. }
  subst w'. rewrite Hrun in *. simpl. repeat split.
  - exact Hlater.
  - f_equal. fold stored_at. lia.
  - apply Hlater. fold stored_at. lia.
Qed.

(** C3 (amended). Whenever a call made in a reachable state returns a
    token (a call served in one piece, or one resumed after its [fetch]),
    that token is the one of the most recent grant.  If it was served from
    the cache it is returned strictly more than 60 seconds before the
    grant's real expiry (the instant it was stored plus its lifetime).  If
    it was freshly obtained it is returned at the instant it was stored,
    which is 60 seconds or more before the real expiry exactly when the
    reported lifetime is at least 60 seconds. *)
Theorem token_served_before_real_expiry w t tok w' :
  reachable clientId clientSecret base64 net w ->
  getSpotifyToken clientId clientSecret base64 net (at_time t w) = (Ok tok, w')
  \/ (exists o, resume clientId clientSecret base64 t o w = (Ok tok, w')) ->
  exists g,
    last_grant (exchanges w') = Some g /\
    tok = access_token (snd g) /\
    ((exchanges w' = exchanges w /\
      clock w' + safety_margin < real_expiry g)
     \/
     (List.length (exchanges w') = S (List.length (exchanges w)) /\
      fst g = clock w' /\
      (clock w' + safety_margin <= real_expiry g
       <-> 60 <= expires_in (snd g)))).
Proof.
  intros Hreach Hrun.
  assert (Hfresh : forall v t' o,
            exchanges v = exchanges w ->
            resume clientId clientSecret base64 t' o v = (Ok tok, w') ->
            exists g,
              last_grant (exchanges w') = Some g /\
              tok = access_token (snd g) /\
              ((exchanges w' = exchanges w /\
                clock w' + safety_margin < real_expiry g)
               \/
               (List.length (exchanges w') = S (List.length (exchanges w)) /\
                fst g = clock w' /\
                (clock w' + safety_margin <= real_expiry g
                 <-> 60 <= expires_in (snd g))))).
  { intros v t' o Hlog Hres.
    destruct (resume_returns_fresh t' o v tok w' Hres)
      as (g & Hg & Htk & Hlen & Hat & Hiff).
    exists g. rewrite Hlog in Hlen. auto 6. }
  destruct Hrun as [Hrun | [o Hres]]; [|exact (Hfresh w t o eq_refl Hres)].
  assert (Hstep : in_step (at_time t w))
    by (apply (reachable_in_step w) in Hreach; exact Hreach).
  assert (Hmiss : refresh' (at_time t w) = (Ok tok, w') ->
            exists t' o,
              resume clientId clientSecret base64 t' o (at_time t w)
              = (Ok tok, w')).
  { intros Hrefresh.
    destruct (truthy (env_value clientId)) eqn:Hid;
      [destruct (truthy (env_value clientSecret)) eqn:Hsecret|].
    - rewrite refresh_as_resume in Hrefresh by (split; assumption).
      eauto.
    - unfold refresh, report, try_catch, mbind in Hrefresh.
      rewrite Hid, Hsecret in Hrefresh. discriminate Hrefresh.
    - unfold refresh, report, try_catch, mbind in Hrefresh.
      rewrite Hid in Hrefresh. discriminate Hrefresh. }
  unfold getSpotifyToken in Hrun.
  destruct (cache_valid (at_time t w)) eqn:Hvalid.
  - destruct (accessToken (at_time t w)) as [tok'|] eqn:Htok.
    + injection Hrun as <- <-.
      unfold in_step in Hstep. unfold cache_valid in Hvalid.
      rewrite Htok in Hvalid. simpl in Hstep, Hvalid, Htok |- *.
      destruct (last_grant (exchanges w)) as [[stored_at data]|].
      * destruct Hstep as [Hacc Hexp]. rewrite Hexp in Hvalid.
        exists (stored_at, data). split; [reflexivity|].
        split; [simpl; congruence|]. left. split; [reflexivity|].
        apply andb_prop in Hvalid as [_ Hvalid].
        apply andb_prop in Hvalid as [_ Hvalid].
        apply Z.ltb_lt in Hvalid.
        unfold real_expiry, safety_margin; simpl. lia.
      * destruct Hstep as [Hacc _]. congruence.
    + destruct (Hmiss Hrun) as (t' & o & Hres).
      exact (Hfresh (at_time t w) t' o eq_refl Hres).
  - destruct (Hmiss Hrun) as (t' & o & Hres).
    exact (Hfresh (at_time t w) t' o eq_refl Hres).
Qed.

(** C4. When the round trip of a call comes back with a non-success status,
    the call throws an error whose message carries the upstream status and
    body, both cached variables are as before the call, and any later call
    makes a round trip again. *)
Theorem refused_exchange_leaves_cache w res w' x r :
  getToken w = (res, w') ->
  exchanges w' = (exchanges w ++ [x])%list ->
  got x = Resolved r -> ok r = false ->
  res = Throw (Error ("Spotify token error: " ++ of_Z (status r)
                      ++ " - " ++ text r)) /\
  accessToken w' = accessToken w /\
  tokenExpiry w' = tokenExpiry w /\
  forall t, clock w <= t ->
    List.length (exchanges (snd (getToken (at_time t w'))))
    = S (List.length (exchanges w')).
Proof.
  intros Hrun Hlog Hgot Hok.
  assert (Hmiss : cache_valid w = false /\ refresh' w = (res, w')).
  { unfold getSpotifyToken in Hrun.
    destruct (cache_valid w) eqn:Hvalid; [|split; [reflexivity|exact Hrun]].
    destruct (accessToken w) as [tok|] eqn:Htok.
    - injection Hrun as <- <-. exfalso. exact (app_one_neq _ _ Hlog).
    - unfold cache_valid in Hvalid. rewrite Htok in Hvalid. discriminate. }
  destruct Hmiss as [Hvalid Hrefresh]. clear Hrun.
  unfold refresh, report, store_reply, try_catch, mbind, fetch, settle
    in Hrefresh.
  destruct (truthy (env_value clientId)) eqn:Hid; simpl in Hrefresh.
  2:{ injection Hrefresh as <- <-. simpl in Hlog.
      exfalso. exact (app_one_neq _ _ Hlog). }
  destruct (truthy (env_value clientSecret)) eqn:Hsec; simpl in Hrefresh.
  2:{ injection Hrefresh as <- <-. simpl in Hlog.
      exfalso. exact (app_one_neq _ _ Hlog). }
  assert (Hconf : configured clientId clientSecret) by (split; assumption).
  assert (Hretry : accessToken w' = accessToken w ->
                   tokenExpiry w' = tokenExpiry w ->
                   forall t, clock w <= t ->
                   List.length (exchanges (snd (getToken (at_time t w'))))
                   = S (List.length (exchanges w'))).
  { intros Hacc Hexp t Ht. rewrite miss_sends; [ | | exact Hconf].
    - rewrite length_app. simpl. lia.
    - assert (Hsame : cache_valid (at_time t w') = cache_valid (at_time t w))
        by (unfold cache_valid, at_time; simpl; rewrite Hacc, Hexp;
            reflexivity).
      rewrite Hsame. apply invalid_stays_invalid; assumption. }
  destruct (net (List.length (exchanges w))) as [elapsed [e|r0]];
    simpl in Hrefresh.
  - injection Hrefresh as <- <-. simpl in Hlog.
    apply app_one_inj in Hlog. subst x. discriminate.
  - destruct (ok r0) eqn:Hok0; simpl in Hrefresh.
    + exfalso.
      assert (Hx : exchanges w'
                   = (exchanges w ++ [{| sent := the_request;
                                         finished_at := clock w + elapsed;
                                         got := Resolved r0 |}])%list).
      { unfold lift in Hrefresh.
        destruct (json r0); injection Hrefresh as <- <-; reflexivity. }
      rewrite Hx in Hlog. apply app_one_inj in Hlog. subst x.
      simpl in Hgot. congruence.
    + injection Hrefresh as <- <-. simpl in Hlog |- *.
      apply app_one_inj in Hlog. subst x. simpl in Hgot.
      injection Hgot as ->.
      split; [reflexivity|]. split; [reflexivity|]. split; [reflexivity|].
      apply Hretry; reflexivity.
Qed.

(** C5. When a required credential is absent (or empty) and no cached token
    is still valid, the call throws the configuration error; no round trip
    is made and the cached variables are untouched (only the console
    receives the error). *)
Theorem missing_credentials_rejected w :
  truthy (env_value clientId) = false
  \/ truthy (env_value clientSecret) = false ->
  stale w ->
  getToken w
  = (Throw (Error "Spotify credentials not configured"),
     {| accessToken := accessToken w; tokenExpiry := tokenExpiry w;
        clock := clock w; exchanges := exchanges w;
        console := console w
                     ++ [Error "Spotify credentials not configured"] |}).
Proof.
  intros Hcred Hstale.
  rewrite miss_refreshes by (apply stale_cache_invalid, Hstale).
  unfold refresh, try_catch, mbind.
  destruct Hcred as [-> | ->]; simpl.
  - reflexivity.
  - rewrite orb_true_r. reflexivity.
Qed.

End Facts.

(** Witness of C1: one second after a grant of an hour, the cached token is
    served as is. *)
Lemma cached_token_served_witness :
  getSpotifyToken (Some "id") (Some "secret") plain (granting_net 250 3600)
    (at_time 2250 warm)
  = (Ok "BQD-token", at_time 2250 warm).
Proof.
  apply (cached_token_served (Some "id") (Some "secret") plain
           (granting_net 250 3600) (at_time 2250 warm)
           "BQD-token" 3541250).
  - reflexivity.
  - discriminate.
  - reflexivity.
  - discriminate.
  - simpl. lia.
Defined.

(** C2 as stated fails: the expiry is not counted from the call time when
    the round trip takes time.  A call at 1000 ms whose round trip takes
    250 ms stores 1250 + 3540000, not 1000 + 3540000. *)
Lemma expiry_not_counted_from_call_time :
  ~ (forall (clientId clientSecret : option string) base64 net w
            id secret elapsed r data,
       stale w ->
       clientId = Some id -> id <> "" ->
       clientSecret = Some secret -> secret <> "" ->
       net (List.length (exchanges w)) = (elapsed, Resolved r) ->
       ok r = true -> json r = Ok data ->
       tokenExpiry (snd (getSpotifyToken clientId clientSecret base64 net w))
       = Some (clock w + (expires_in data - 60) * 1000)).
Proof.
  intros claim.
  specialize (claim (Some "id") (Some "secret") plain (granting_net 250 3600)
                cold "id" "secret" 250
                {| ok := true; status := 200; text := "";
                   json := Ok {| access_token := "BQD-token";
                                 expires_in := 3600 |} |}
                {| access_token := "BQD-token"; expires_in := 3600 |}).
  assert (Hstale : stale cold) by (intros tok expiry H; discriminate H).
  specialize (claim Hstale eq_refl ltac:(discriminate) eq_refl
                ltac:(discriminate) eq_refl eq_refl eq_refl).
  vm_compute in claim. discriminate claim.
Qed.

(** Witness of C2 (amended): the scenario of the specification, with a
    round trip of 250 ms. *)
Lemma refresh_stores_grant_witness :
  fst (getSpotifyToken (Some "id") (Some "secret") plain
         (granting_net 250 3600) cold) = Ok "BQD-token"
  /\ tokenExpiry warm = Some (1250 + 3540 * 1000)
  /\ List.length
       (exchanges
          (snd (getSpotifyToken (Some "id") (Some "secret") plain
                  (granting_net 250 3600)
                  (at_time (1250 + 3541 * 1000) warm))))
     = 2%nat.
Proof.
  assert (Hstale : stale cold) by (intros tok expiry H; discriminate H).
  pose proof (refresh_stores_grant (Some "id") (Some "secret") plain
                (granting_net 250 3600) cold "id" "secret" 250
                {| ok := true; status := 200; text := "";
                   json := Ok {| access_token := "BQD-token";
                                 expires_in := 3600 |} |}
                {| access_token := "BQD-token"; expires_in := 3600 |}
                Hstale eq_refl ltac:(discriminate) eq_refl
                ltac:(discriminate) eq_refl eq_refl eq_refl)
    as (Hres & _ & _ & _ & _ & Hscenario).
  destruct (Hscenario eq_refl) as [Hexp Hagain].
  split; [exact Hres|]. split; [exact Hexp|exact Hagain].
Defined.

(** C3 as stated fails for a fresh token whose reported lifetime is shorter
    than the margin: a token granted for 30 seconds is returned at the
    instant it is stored, 30 seconds before its real expiry. *)
Lemma short_lived_token_served_late :
  ~ (forall (clientId clientSecret : option string) base64 net w t tok w' g,
       reachable clientId clientSecret base64 net w ->
       getSpotifyToken clientId clientSecret base64 net (at_time t w)
       = (Ok tok, w') ->
       last_grant (exchanges w') = Some g ->
       clock w' + safety_margin <= real_expiry g).
Proof.
  intros claim.
  specialize (claim (Some "id") (Some "secret") plain (granting_net 250 30)
                (boot 0) 1000 "BQD-token"
                (snd (getSpotifyToken (Some "id") (Some "secret") plain
                        (granting_net 250 30) (at_time 1000 (boot 0))))
                (1250, {| access_token := "BQD-token"; expires_in := 30 |})
                (reachable_boot _ _ _ _ 0) eq_refl eq_refl).
  vm_compute in claim. apply claim. reflexivity.
Qed.

(** Witness of C3 (amended): the first call of the process. *)
Lemma token_served_before_real_expiry_witness :
  exists g,
    last_grant (exchanges warm) = Some g /\
    "BQD-token" = access_token (snd g) /\
    ((exchanges warm = exchanges (boot 0) /\
      clock warm + safety_margin < real_expiry g)
     \/
     (List.length (exchanges warm) = S (List.length (exchanges (boot 0))) /\
      fst g = clock warm /\
      (clock warm + safety_margin <= real_expiry g
       <-> 60 <= expires_in (snd g)))).
Proof.
  apply (token_served_before_real_expiry (Some "id") (Some "secret") plain
           (granting_net 250 3600) (boot 0) 1000 "BQD-token" warm).
  - apply reachable_boot.
  - left. reflexivity.
Defined.

(** Witness of C4: a 401 from the token endpoint on the first call. *)
Lemma refused_exchange_leaves_cache_witness :
  fst (getSpotifyToken (Some "id") (Some "secret") plain (refusing_net 80)
         cold)
  = Throw (Error "Spotify token error: 401 - invalid_client")
  /\ accessToken
       (snd (getSpotifyToken (Some "id") (Some "secret") plain
               (refusing_net 80) cold)) = None
  /\ List.length
       (exchanges
          (snd (getSpotifyToken (Some "id") (Some "secret") plain
                  (refusing_net 80)
                  (at_time 5000
                     (snd (getSpotifyToken (Some "id") (Some "secret") plain
                             (refusing_net 80) cold))))))
     = 2%nat.
Proof.
  pose proof (refused_exchange_leaves_cache (Some "id") (Some "secret") plain
                (refusing_net 80) cold
                (fst (getSpotifyToken (Some "id") (Some "secret") plain
                        (refusing_net 80) cold))
                (snd (getSpotifyToken (Some "id") (Some "secret") plain
                        (refusing_net 80) cold))
                {| sent := token_request (Some "id") (Some "secret") plain;
                   finished_at := 1080;
                   got := refused 401 "invalid_client" |}
                {| ok := false; status := 401; text := "invalid_client";
                   json := Throw (Error "Unexpected token") |}
                eq_refl eq_refl eq_refl eq_refl)
    as (Hres & Hacc & _ & Hretry).
  split; [exact Hres|]. split; [exact Hacc|].
  apply (Hretry 5000). simpl. lia.
Defined.

(** Witness of C5: no client secret in the environment. *)
Lemma missing_credentials_rejected_witness :
  getSpotifyToken (Some "id") None plain (granting_net 250 3600) cold
  = (Throw (Error "Spotify credentials not configured"),
     {| accessToken := None; tokenExpiry := None; clock := 1000;
        exchanges := [];
        console := [Error "Spotify credentials not configured"] |}).
Proof.
  apply (missing_credentials_rejected (Some "id") None plain
           (granting_net 250 3600) cold).
  - right. reflexivity.
  - intros tok expiry H. discriminate H.
Defined.


End TokenCacheFacts.

(* ================================================================== *)
(** ** Properties of the normalization *)
(* ================================================================== *)

Module CatalogFacts.
Import JS Catalog Samples.

Ltac bind_inv H :=
  match type of H with
  | bind ?c _ = Ok _ =>
      let x := fresh "x" in
      let E := fresh "E" in
      destruct c as [x|] eqn:E; [cbn [bind] in H | discriminate H]
  end.

Lemma filterM_without p xs x ys v :
  p x = Ok v -> truthy v = false ->
  filterM p (xs ++ x :: ys) = filterM p (xs ++ ys).
Proof.
  intros Hp Hv. induction xs as [|a xs IH]; simpl.
  - rewrite Hp. simpl. rewrite Hv. destruct (filterM p ys); reflexivity.
  - rewrite IH. reflexivity.
Qed.

Lemma filter_without p xs x ys v :
  p x = Ok v -> truthy v = false ->
  filter (Arr (xs ++ x :: ys)) p = filter (Arr (xs ++ ys)) p.
Proof.
  intros Hp Hv. unfold filter. rewrite (filterM_without p xs x ys v Hp Hv).
  reflexivity.
Qed.

Lemma mapM_Forall2 f xs ys :
  mapM f xs = Ok ys -> Forall2 (fun x y => f x = Ok y) xs ys.
Proof.
  revert ys. induction xs as [|x xs IH]; simpl; intros ys H.
  - injection H as <-. constructor.
  - bind_inv H. bind_inv H. injection H as <-.
    constructor; [assumption|]. apply IH. reflexivity.
Qed.

Lemma mapM_In f xs ys y :
  mapM f xs = Ok ys -> In y ys -> exists x, In x xs /\ f x = Ok y.
Proof.
  intros H Hy. apply mapM_Forall2 in H.
  induction H as [|x y' xs ys Hxy _ IH]; simpl in Hy; [contradiction|].
  destruct Hy as [<- | Hy].
  - exists x. split; [left; reflexivity|assumption].
  - destruct (IH Hy) as (x' & Hin & Hx'). exists x'. split; [right|]; assumption.
Qed.

Lemma filterM_In p xs ys y :
  filterM p xs = Ok ys -> In y ys ->
  In y xs /\ exists v, p y = Ok v /\ truthy v = true.
Proof.
  revert ys. induction xs as [|x xs IH]; simpl; intros ys H Hy.
  - injection H as <-. contradiction.
  - bind_inv H. bind_inv H. injection H as <-.
    destruct (truthy x0) eqn:Hkeep.
    + destruct Hy as [<- | Hy].
      * split; [left; reflexivity|]. exists x0. split; assumption.
      * destruct (IH x1 eq_refl Hy) as [Hin Hv]. split; [right|]; assumption.
    + destruct (IH x1 eq_refl Hy) as [Hin Hv]. split; [right|]; assumption.
Qed.

Lemma get_not_nullish v k x : get v k = Ok x -> nullish v = false.
Proof.
  destruct v; simpl; intros H; try reflexivity; discriminate H.
Qed.

(** The object literal, read back property by property. *)
Lemma track_literal_inv e o :
  track_literal e = Ok o ->
  exists id title artist album cover preview duration ext,
    e @. "id" = Ok id /\
    e @. "name" = Ok title /\
    artist_names e = Ok artist /\
    opt_chain (e @. "album") (fun a => get a "name") = Ok album /\
    track_coverArt e = Ok cover /\
    e @. "preview_url" = Ok preview /\
    e @. "duration_ms" = Ok duration /\
    e @. "external_urls" @. "spotify" = Ok ext /\
    o = Obj [("id", id); ("title", title); ("artist", artist);
             ("album", album); ("coverArt", cover);
             ("previewUrl", preview); ("duration", duration);
             ("externalUrl", ext)].
Proof.
  unfold track_literal. intros H.
  do 8 bind_inv H. injection H as <-.
  exists x, x0, x1, x2, x3, x4, x5, x6. repeat split.
Qed.

Lemma release_literal_inv album o :
  release_literal album = Ok o ->
  exists id title artist cover ext date total,
    get album "id" = Ok id /\
    get album "name" = Ok title /\
    artist_names (Ok album) = Ok artist /\
    album_coverArt album = Ok cover /\
    Ok album @. "external_urls" @. "spotify" = Ok ext /\
    get album "release_date" = Ok date /\
    get album "total_tracks" = Ok total /\
    o = Obj [("id", id); ("title", title); ("artist", artist);
             ("coverArt", cover); ("externalUrl", ext);
             ("releaseDate", date); ("totalTracks", total)].
Proof.
  unfold release_literal. intros H.
  do 7 bind_inv H. injection H as <-.
  exists x, x0, x1, x2, x3, x4, x5. repeat split.
Qed.

(** Images of an album whose descriptors all carry a URL. *)
Lemma album_image_url_inside album imgs i :
  get album "images" = Ok (Arr imgs) -> Forall has_url imgs ->
  (i < List.length imgs)%nat ->
  album_image_url album i = get (nth i imgs Undefined) "url"
  /\ exists u, album_image_url album i = Ok (Str u) /\ u <> "".
Proof.
  intros Himgs Hall Hi.
  assert (Hnth : has_url (nth i imgs Undefined)).
  { rewrite Forall_forall in Hall. apply Hall. apply nth_In. exact Hi. }
  destruct Hnth as (u & Hu & Hne).
  unfold album_image_url, opt_chain, at_index, dot. simpl.
  rewrite Himgs. simpl.
  rewrite (get_not_nullish _ _ _ Hu), Hu.
  split; [reflexivity|]. exists u. split; [reflexivity|exact Hne].
Qed.

Lemma album_image_url_outside album imgs i :
  get album "images" = Ok (Arr imgs) ->
  (List.length imgs <= i)%nat ->
  album_image_url album i = Ok Undefined.
Proof.
  intros Himgs Hi.
  unfold album_image_url, opt_chain, at_index, dot. simpl.
  rewrite Himgs. simpl. rewrite nth_overflow by exact Hi. reflexivity.
Qed.

Lemma track_image_url_album track album imgs i :
  get track "album" = Ok album -> get album "images" = Ok (Arr imgs) ->
  track_image_url (Ok track) i = album_image_url album i.
Proof.
  intros Halbum Himgs. unfold track_image_url, album_image_url.
  unfold opt_chain at 1. unfold dot at 1. simpl. rewrite Halbum. simpl.
  rewrite (get_not_nullish _ _ _ Himgs). reflexivity.
Qed.

(** C6. In the three track routes an item without a preview URL (absent,
    [null] or empty) leaves no trace in the output: the route answers as if
    the item had not been in the upstream list.  The new-releases route
    filters nothing: when it answers, every upstream album has its
    normalized record at the same position. *)
Theorem items_without_preview_dropped
    (track v pitem : value) (xs ys : list value) :
  get track "preview_url" = Ok v -> truthy v = false ->
  get pitem "track" = Ok track ->
  (forall payload payload',
     get payload "items" = Ok (Arr (xs ++ pitem :: ys)) ->
     get payload' "items" = Ok (Arr (xs ++ ys)) ->
     featured_tracks payload = featured_tracks payload') /\
  (forall payload payload',
     get payload "tracks" = Ok (Arr (xs ++ track :: ys)) ->
     get payload' "tracks" = Ok (Arr (xs ++ ys)) ->
     genre_tracks payload = genre_tracks payload') /\
  (forall payload payload',
     Ok payload @. "tracks" @. "items" = Ok (Arr (xs ++ track :: ys)) ->
     Ok payload' @. "tracks" @. "items" = Ok (Arr (xs ++ ys)) ->
     search_tracks payload = search_tracks payload') /\
  (forall payload albums out,
     Ok payload @. "albums" @. "items" = Ok (Arr albums) ->
     new_releases payload = Ok out ->
     exists records,
       out = Arr records /\
       Forall2 (fun album o => release_literal album = Ok o) albums records).
Proof.
  intros Hprev Hfalsy Htrack.
  assert (Hkeep : exists k, featured_keep pitem = Ok k /\ truthy k = false).
  { unfold featured_keep, and_also, dot. simpl. rewrite Htrack. simpl.
    destruct (truthy track) eqn:Ht.
    - rewrite Hprev. exists v. split; [reflexivity|exact Hfalsy].
    - exists track. split; [reflexivity|exact Ht]. }
  destruct Hkeep as (k & Hk & Hkf).
  repeat split.
  - intros payload payload' Hp Hp'. unfold featured_tracks.
    rewrite Hp, Hp'. cbn [bind].
    rewrite (filter_without featured_keep xs pitem ys k Hk Hkf). reflexivity.
  - intros payload payload' Hp Hp'. unfold genre_tracks.
    rewrite Hp, Hp'. cbn [bind].
    rewrite (filter_without has_preview xs track ys v Hprev Hfalsy).
    reflexivity.
  - intros payload payload' Hp Hp'. unfold search_tracks.
    rewrite Hp, Hp'. cbn [bind].
    rewrite (filter_without has_preview xs track ys v Hprev Hfalsy).
    reflexivity.
  - intros payload albums out Hp Hrun. unfold new_releases in Hrun.
    rewrite Hp in Hrun. cbn [bind] in Hrun. unfold map in Hrun.
    bind_inv Hrun. injection Hrun as <-.
    exists x. split; [reflexivity|]. apply mapM_Forall2. exact E.
Qed.

(** Witness of C6: a track whose [preview_url] is [null], between two
    playable ones, and an album (which has no preview at all). *)
Lemma items_without_preview_dropped_witness :
  featured_tracks
    (Obj [("items", Arr [Obj [("track", playable)];
                         Obj [("track", silent)];
                         Obj [("track", playable)]])])
  = featured_tracks
      (Obj [("items", Arr [Obj [("track", playable)];
                           Obj [("track", playable)]])])
  /\ genre_tracks (Obj [("tracks", Arr [playable; silent; playable])])
     = genre_tracks (Obj [("tracks", Arr [playable; playable])])
  /\ search_tracks
       (Obj [("tracks", Obj [("items", Arr [playable; silent; playable])])])
     = search_tracks
         (Obj [("tracks", Obj [("items", Arr [playable; playable])])])
  /\ exists records,
       Ok (Arr [normalized_X]) = Ok (Arr records) /\
       Forall2 (fun album o => release_literal album = Ok o)
         [album_X] records.
Proof.
  destruct (items_without_preview_dropped silent Null
              (Obj [("track", silent)])
              [Obj [("track", playable)]] [Obj [("track", playable)]]
              eq_refl eq_refl eq_refl)
    as (Hfeatured & _).
  destruct (items_without_preview_dropped silent Null
              (Obj [("track", silent)]) [playable] [playable]
              eq_refl eq_refl eq_refl)
    as (_ & Hgenre & Hsearch & Hreleases).
  split; [apply Hfeatured; reflexivity|].
  split; [apply Hgenre; reflexivity|].
  split; [apply Hsearch; reflexivity|].
  destruct (Hreleases (Obj [("albums", Obj [("items", Arr [album_X])])])
              [album_X] (Arr [normalized_X]) eq_refl eq_refl)
    as (records & Hout & Hall).
  exists records. split; [f_equal; exact Hout|exact Hall].
Defined.

(** C10. A playlist item whose [track] is [null] or absent is dropped by
    the filter of the featured-tracks route before any of its fields is
    read (reading them would throw): the route answers as if the item had
    not been in the upstream list. *)
Theorem playlist_item_without_track_dropped
    (pitem t : value) (xs ys : list value) :
  get pitem "track" = Ok t -> nullish t = true ->
  featured_keep pitem = Ok t /\
  track_literal (get pitem "track") = Throw (TypeError "id") /\
  forall payload payload',
    get payload "items" = Ok (Arr (xs ++ pitem :: ys)) ->
    get payload' "items" = Ok (Arr (xs ++ ys)) ->
    featured_tracks payload = featured_tracks payload'.
Proof.
  intros Htrack Hnull.
  assert (Hfalsy : truthy t = false) by (destruct t; try discriminate; reflexivity).
  assert (Hkeep : featured_keep pitem = Ok t).
  { unfold featured_keep, and_also. rewrite Htrack. simpl.
    rewrite Hfalsy. reflexivity. }
  split; [exact Hkeep|]. split.
  - rewrite Htrack. destruct t; try discriminate; reflexivity.
  - intros payload payload' Hp Hp'. unfold featured_tracks.
    rewrite Hp, Hp'. cbn [bind].
    rewrite (filter_without featured_keep xs pitem ys t Hkeep Hfalsy).
    reflexivity.
Qed.

(** Witness of C10: an item with [track: null] and one without [track]. *)
Lemma playlist_item_without_track_dropped_witness :
  featured_tracks
    (Obj [("items", Arr [Obj [("track", playable)];
                         Obj [("added_at", Str "2024-05-01"); ("track", Null)];
                         Obj [("added_at", Str "2024-05-02")]])])
  = featured_tracks (Obj [("items", Arr [Obj [("track", playable)]])]).
Proof.
  destruct (playlist_item_without_track_dropped
              (Obj [("added_at", Str "2024-05-01"); ("track", Null)]) Null
              [Obj [("track", playable)]]
              [Obj [("added_at", Str "2024-05-02")]]
              eq_refl eq_refl)
    as (_ & _ & Hfirst).
  destruct (playlist_item_without_track_dropped
              (Obj [("added_at", Str "2024-05-02")]) Undefined
              [Obj [("track", playable)]] []
              eq_refl eq_refl)
    as (_ & _ & Hsecond).
  transitivity
    (featured_tracks
       (Obj [("items", Arr [Obj [("track", playable)];
                            Obj [("added_at", Str "2024-05-02")]])])).
  - apply Hfirst; reflexivity.
  - apply Hsecond; reflexivity.
Defined.

Lemma has_own_keys ps k : has_own ps k = true -> In k (List.map fst ps).
Proof.
  induction ps as [|[k' v] ps IH]; simpl; [discriminate|].
  intros H. apply orb_prop in H as [H|H].
  - left. apply String.eqb_eq. exact H.
  - right. apply IH. exact H.
Qed.

Lemma wire_props_keys ps k :
  In k (List.map fst (wire_props wire ps)) -> In k (List.map fst ps).
Proof.
  induction ps as [|[k' v] ps IH]; simpl; [tauto|].
  destruct v; simpl; tauto.
Qed.

(** A property whose value is [undefined] is not sent. *)
Lemma undefined_not_on_wire ps k :
  NoDup (List.map fst ps) -> has_own ps k = true -> own ps k = Undefined ->
  has_field (wire (Obj ps)) k = false.
Proof.
  simpl. induction ps as [|[k' v] ps IH]; simpl; [reflexivity|].
  intros Hnd Hhas Hown. inversion Hnd as [|? ? Hnotin Hnd']; subst.
  destruct (String.eqb_spec k' k) as [->|Hne].
  - subst v. destruct (has_own (wire_props wire ps) k) eqn:Hin;
      [|reflexivity].
    exfalso. apply Hnotin. apply wire_props_keys, has_own_keys. exact Hin.
  - simpl in Hhas. specialize (IH Hnd' Hhas Hown).
    destruct v; simpl; try exact IH;
      (destruct (String.eqb_spec k' k); [contradiction|exact IH]).
Qed.

(** C7. For an image list whose descriptors all carry a URL, the cover art
    of a normalized track or release is the URL at index 2 when the list has
    three or more entries, the URL at index 1 when it has exactly two, the
    URL at index 0 when it has one; with no entry the value is [undefined]
    (no exception, no empty string) and the property is not sent. *)
Theorem cover_art_by_length (album : value) (imgs : list value) :
  get album "images" = Ok (Arr imgs) -> Forall has_url imgs ->
  (forall track, get track "album" = Ok album ->
     track_coverArt (Ok track) = album_coverArt album) /\
  (forall o, release_literal album = Ok o ->
     get o "coverArt" = album_coverArt album) /\
  (forall track o, get track "album" = Ok album ->
     track_literal (Ok track) = Ok o ->
     get o "coverArt" = album_coverArt album) /\
  ((3 <= List.length imgs)%nat ->
     album_coverArt album = get (nth 2 imgs Undefined) "url") /\
  (List.length imgs = 2%nat ->
     album_coverArt album = get (nth 1 imgs Undefined) "url") /\
  (List.length imgs = 1%nat ->
     album_coverArt album = get (nth 0 imgs Undefined) "url") /\
  (List.length imgs = 0%nat ->
     album_coverArt album = Ok Undefined /\
     forall o,
       release_literal album = Ok o
       \/ (exists track, get track "album" = Ok album
                         /\ track_literal (Ok track) = Ok o) ->
       has_field (wire o) "coverArt" = false).
Proof.
  intros Himgs Hall.
  assert (Htrack : forall track, get track "album" = Ok album ->
            track_coverArt (Ok track) = album_coverArt album).
  { intros track Halbum. unfold track_coverArt, album_coverArt.
    rewrite !(track_image_url_album track album imgs) by assumption.
    reflexivity. }
  assert (Hrelease : forall o, release_literal album = Ok o ->
            get o "coverArt" = album_coverArt album).
  { intros o Ho.
    destruct (release_literal_inv album o Ho)
      as (id & title & artist & cover & ext & date & total
          & _ & _ & _ & Hcover & _ & _ & _ & ->).
    rewrite Hcover. reflexivity. }
  assert (Hliteral : forall track o, get track "album" = Ok album ->
            track_literal (Ok track) = Ok o ->
            get o "coverArt" = album_coverArt album).
  { intros track o Halbum Ho.
    destruct (track_literal_inv (Ok track) o Ho)
      as (id & title & artist & alb & cover & preview & duration & ext
          & _ & _ & _ & _ & Hcover & _ & _ & _ & ->).
    rewrite <- (Htrack track Halbum), Hcover. reflexivity. }
  assert (Hin : forall i, (i < List.length imgs)%nat ->
            forall rest,
              album_image_url album i ||| rest
              = get (nth i imgs Undefined) "url").
  { intros i Hi rest.
    destruct (album_image_url_inside album imgs i Himgs Hall Hi)
      as (Heq & u & Hu & Hne).
    rewrite <- Heq, Hu. unfold or_else. cbn [bind].
    rewrite (TokenCacheFacts.truthy_Str u Hne). reflexivity. }
  assert (Hout : forall i, (List.length imgs <= i)%nat ->
            forall rest, album_image_url album i ||| rest = rest).
  { intros i Hi rest.
    rewrite (album_image_url_outside album imgs i Himgs Hi). reflexivity. }
  split; [exact Htrack|]. split; [exact Hrelease|].
  split; [exact Hliteral|].
  unfold album_coverArt. refine (conj _ (conj _ (conj _ _))).
  - intros Hlen. rewrite (Hin 2%nat) by lia.
    destruct (album_image_url_inside album imgs 2 Himgs Hall ltac:(lia))
      as (Heq & u & Hu & Hne).
    rewrite <- Heq, Hu. unfold or_else. cbn [bind].
    rewrite (TokenCacheFacts.truthy_Str u Hne). reflexivity.
  - intros Hlen. rewrite (Hout 2%nat) by lia. apply Hin. lia.
  - intros Hlen. rewrite (Hout 2%nat), (Hout 1%nat) by lia.
    apply (album_image_url_inside album imgs 0 Himgs Hall). lia.
  - intros Hlen. split.
    + rewrite (Hout 2%nat), (Hout 1%nat) by lia.
      apply (album_image_url_outside album imgs 0 Himgs). lia.
    + intros o Ho.
      assert (Hnone : album_coverArt album = Ok Undefined).
      { unfold album_coverArt.
        rewrite (Hout 2%nat), (Hout 1%nat) by lia.
        apply (album_image_url_outside album imgs 0 Himgs). lia. }
      destruct Ho as [Ho | (track & Halbum & Ho)].
      * pose proof (Hrelease o Ho) as Hget. rewrite Hnone in Hget.
        destruct (release_literal_inv album o Ho)
          as (id & title & artist & cover & ext & date & total
              & _ & _ & _ & _ & _ & _ & _ & ->).
        simpl in Hget. injection Hget as ->.
        apply undefined_not_on_wire; [|reflexivity|reflexivity].
        simpl. repeat constructor; simpl; intuition discriminate.
      * pose proof (Hliteral track o Halbum Ho) as Hget.
        rewrite Hnone in Hget.
        destruct (track_literal_inv (Ok track) o Ho)
          as (id & title & artist & alb & cover & preview & duration & ext
              & _ & _ & _ & _ & _ & _ & _ & _ & ->).
        simpl in Hget. injection Hget as ->.
        apply undefined_not_on_wire; [|reflexivity|reflexivity].
        simpl. repeat constructor; simpl; intuition discriminate.
Qed.

(** Witness of C7: the album of the specification's scenario, whose three
    images are L, M and S. *)
Lemma cover_art_by_length_witness :
  album_coverArt album_X = Ok (Str "S")
  /\ track_coverArt (Ok playable) = Ok (Str "S").
Proof.
  assert (Hall : Forall has_url [image "L"; image "M"; image "S"]).
  { repeat constructor.
    - exists "L". split; [reflexivity|discriminate].
    - exists "M". split; [reflexivity|discriminate].
    - exists "S". split; [reflexivity|discriminate]. }
  destruct (cover_art_by_length album_X [image "L"; image "M"; image "S"]
              eq_refl Hall)
    as (Htrack & _ & _ & Hthree & _).
  split.
  - rewrite Hthree by (simpl; lia). reflexivity.
  - rewrite (Htrack playable eq_refl), Hthree by (simpl; lia). reflexivity.
Defined.

Example cover_art_of_two :
  album_coverArt (Obj [("images", Arr [image "L"; image "M"])])
  = Ok (Str "M").
Proof. reflexivity. Qed.

Example cover_art_of_one :
  album_coverArt (Obj [("images", Arr [image "L"])]) = Ok (Str "L").
Proof. reflexivity. Qed.

Example cover_art_of_none :
  album_coverArt (Obj [("images", Arr [])]) = Ok Undefined.
Proof. reflexivity. Qed.

(** C8 as stated fails for the catalog routes: a track that carries no
    title of any kind is given no placeholder, its [title] is [undefined]. *)
Lemma catalog_title_has_no_placeholder :
  ~ (forall track o,
       get track "name" = Ok Undefined ->
       get track "title" = Ok Undefined ->
       get track "tags" = Ok Undefined ->
       track_literal (Ok track) = Ok o ->
       get o "title" = Ok (Str "Untitled")).
Proof.
  intros claim.
  specialize (claim nameless _ eq_refl eq_refl eq_refl eq_refl).
  vm_compute in claim. discriminate claim.
Qed.

(** C8 (amended). The fallback is that of [extractMetadata]: its title is
    the common-tag title when that is truthy, else the title among the
    container tags when that is truthy, else the placeholder "Untitled"
    (an empty string counts as absent).  The catalog routes copy the
    upstream [name] into [title] as it is. *)
Theorem title_fallback (c f primary secondary : value) :
  get c "title" = Ok primary ->
  opt_chain (get f "tags") (fun tags => get tags "title") = Ok secondary ->
  (truthy primary = true -> Extract.title_of c f = Ok primary) /\
  (truthy primary = false -> truthy secondary = true ->
     Extract.title_of c f = Ok secondary) /\
  (truthy primary = false -> truthy secondary = false ->
     Extract.title_of c f = Ok (Str "Untitled")) /\
  (forall probe meta,
     Extract.common_tags meta = Ok c -> Extract.format_info probe meta = Ok f ->
     Extract.extracted_title probe meta = Extract.title_of c f) /\
  (forall track o, track_literal (Ok track) = Ok o ->
     get o "title" = get track "name") /\
  (forall album o, release_literal album = Ok o ->
     get o "title" = get album "name").
Proof.
  intros Hprimary Hsecondary. unfold Extract.title_of.
  rewrite Hprimary, Hsecondary. unfold or_else. cbn [bind].
  refine (conj _ (conj _ (conj _ (conj _ (conj _ _))))).
  - intros Hp. rewrite Hp. cbn [bind]. rewrite Hp. reflexivity.
  - intros Hp Hs. rewrite Hp. cbn [bind]. rewrite Hs. reflexivity.
  - intros Hp Hs. rewrite Hp. cbn [bind]. rewrite Hs. reflexivity.
  - intros probe meta Hc Hf. unfold Extract.extracted_title.
    rewrite Hc, Hf. cbn [bind]. unfold Extract.title_of.
    rewrite Hprimary, Hsecondary. reflexivity.
  - intros track o Ho.
    destruct (track_literal_inv (Ok track) o Ho)
      as (id & title & artist & alb & cover & preview & duration & ext
          & _ & Htitle & _ & _ & _ & _ & _ & _ & ->).
    simpl in Htitle. rewrite Htitle. reflexivity.
  - intros album o Ho.
    destruct (release_literal_inv album o Ho)
      as (id & title & artist & cover & ext & date & total
          & _ & Htitle & _ & _ & _ & _ & _ & ->).
    rewrite Htitle. reflexivity.
Qed.

(** Witness of C8 (amended): a file whose common tags have an empty title
    and whose container tags name it. *)
Lemma title_fallback_witness :
  Extract.extracted_title
    (Obj [("format", Obj [("tags", Obj [("title", Str "Take Five")])])])
    (Obj [("common", Obj [("title", Str "")])])
  = Ok (Str "Take Five")
  /\ get normalized_X "title" = get album_X "name".
Proof.
  destruct (title_fallback
              (Obj [("title", Str "")])
              (Obj [("tags", Obj [("title", Str "Take Five")])])
              (Str "") (Str "Take Five") eq_refl eq_refl)
    as (_ & Hsecond & _ & Hextract & _ & Hrelease).
  split.
  - rewrite (Hextract
               (Obj [("format", Obj [("tags", Obj [("title", Str "Take Five")])])])
               (Obj [("common", Obj [("title", Str "")])])
               eq_refl eq_refl).
    apply Hsecond; reflexivity.
  - apply Hrelease. reflexivity.
Defined.

Example untitled_when_no_tags :
  Extract.extracted_title Null (Obj []) = Ok (Str "Untitled").
Proof. reflexivity. Qed.

Lemma artist_names_inv track artist :
  artist_names (Ok track) = Ok artist ->
  exists artists names,
    get track "artists" = Ok (Arr artists) /\
    mapM (fun a => get a "name") artists = Ok names /\
    artist = Str (String.concat ", " (List.map join_elem names)).
Proof.
  unfold artist_names, dot. cbn [bind]. intros H.
  bind_inv H. bind_inv H.
  destruct x as [| | | | |artists|]; try discriminate E0.
  unfold map in E0. bind_inv E0. injection E0 as <-.
  simpl in H. injection H as <-.
  exists artists, x. repeat split. exact E1.
Qed.

(** The fields of one normalized track, in terms of the upstream track. *)
Lemma track_literal_fields track o :
  track_literal (Ok track) = Ok o ->
  keys o = track_keys /\
  exists artists names,
    get o "id" = get track "id" /\
    get o "title" = get track "name" /\
    get track "artists" = Ok (Arr artists) /\
    mapM (fun a => get a "name") artists = Ok names /\
    get o "artist"
    = Ok (Str (String.concat ", " (List.map join_elem names))) /\
    get o "album" = opt_chain (get track "album") (fun a => get a "name") /\
    get o "coverArt" = track_coverArt (Ok track) /\
    get o "previewUrl" = get track "preview_url" /\
    get o "duration" = get track "duration_ms" /\
    get o "externalUrl" = Ok track @. "external_urls" @. "spotify".
Proof.
  intros Ho.
  destruct (track_literal_inv (Ok track) o Ho)
    as (id & title & artist & alb & cover & preview & duration & ext
        & Hid & Htitle & Hartist & Halb & Hcover & Hprev & Hdur & Hext & ->).
  destruct (artist_names_inv track artist Hartist)
    as (artists & names & Harts & Hnames & ->).
  split; [reflexivity|]. exists artists, names.
  simpl in Hid, Htitle, Hprev, Hdur.
  rewrite Hid, Htitle, Hprev, Hdur, Hcover, Hext.
  unfold dot in Halb. simpl in Halb. rewrite Halb.
  repeat split; assumption.
Qed.

(** C9 as stated fails: no normalized track has a property [durationMs]. *)
Lemma duration_field_not_durationMs :
  ~ (forall payload outs o,
       genre_tracks payload = Ok (Arr outs) -> In o outs ->
       has_field o "durationMs" = true).
Proof.
  intros claim.
  specialize (claim (Obj [("tracks", Arr [playable])]) _ _ eq_refl
                (or_introl eq_refl)).
  vm_compute in claim. discriminate claim.
Qed.

(** C9 (amended). Every element the three track routes return is an object
    with exactly the properties id, title, artist, album, coverArt,
    previewUrl, duration, externalUrl: the duration is under [duration].
    It is the record of an upstream track with a truthy preview URL; the
    artist is one string, the artists' names joined by ", " in upstream
    order; album and coverArt may be [undefined]. *)
Theorem normalized_track_fields (payload : value) (outs : list value)
    (o : value) :
  featured_tracks payload = Ok (Arr outs)
  \/ genre_tracks payload = Ok (Arr outs)
  \/ search_tracks payload = Ok (Arr outs) ->
  In o outs ->
  keys o = track_keys /\
  has_field o "durationMs" = false /\
  exists track artists names preview,
    get o "id" = get track "id" /\
    get o "title" = get track "name" /\
    get track "artists" = Ok (Arr artists) /\
    mapM (fun a => get a "name") artists = Ok names /\
    get o "artist"
    = Ok (Str (String.concat ", " (List.map join_elem names))) /\
    get o "album" = opt_chain (get track "album") (fun a => get a "name") /\
    get o "coverArt" = track_coverArt (Ok track) /\
    get o "previewUrl" = Ok preview /\
    get track "preview_url" = Ok preview /\ truthy preview = true /\
    get o "duration" = get track "duration_ms" /\
    get o "externalUrl" = Ok track @. "external_urls" @. "spotify".
Proof.
  intros Hroute Hin.
  assert (Hsrc : exists track preview,
            track_literal (Ok track) = Ok o /\
            get track "preview_url" = Ok preview /\ truthy preview = true).
  { destruct Hroute as [Hrun | [Hrun | Hrun]].
    - unfold featured_tracks in Hrun. bind_inv Hrun. bind_inv Hrun.
      unfold filter in E0. destruct x; try discriminate E0.
      bind_inv E0. injection E0 as <-.
      unfold map in Hrun. bind_inv Hrun. injection Hrun as <-.
      destruct (mapM_In _ _ _ _ E0 Hin) as (item & Hitem & Hlit).
      destruct (filterM_In _ _ _ _ E1 Hitem) as (_ & v & Hkeep & Hv).
      unfold featured_keep, and_also, dot in Hkeep. cbn [bind] in Hkeep.
      destruct (get item "track") as [track|] eqn:Htrack;
        [cbn [bind] in Hkeep | discriminate Hkeep].
      destruct (truthy track) eqn:Ht.
      + exists track, v. repeat split; assumption.
      + injection Hkeep as <-. congruence.
    - unfold genre_tracks in Hrun. bind_inv Hrun. bind_inv Hrun.
      unfold filter in E0. destruct x; try discriminate E0.
      bind_inv E0. injection E0 as <-.
      unfold map in Hrun. bind_inv Hrun. injection Hrun as <-.
      destruct (mapM_In _ _ _ _ E0 Hin) as (track & Htrack & Hlit).
      destruct (filterM_In _ _ _ _ E1 Htrack) as (_ & v & Hkeep & Hv).
      exists track, v. repeat split; assumption.
    - unfold search_tracks in Hrun. bind_inv Hrun. bind_inv Hrun.
      unfold filter in E0. destruct x; try discriminate E0.
      bind_inv E0. injection E0 as <-.
      unfold map in Hrun. bind_inv Hrun. injection Hrun as <-.
      destruct (mapM_In _ _ _ _ E0 Hin) as (track & Htrack & Hlit).
      destruct (filterM_In _ _ _ _ E1 Htrack) as (_ & v & Hkeep & Hv).
      exists track, v. repeat split; assumption. }
  destruct Hsrc as (track & preview & Hlit & Hprev & Htruthy).
  destruct (track_literal_fields track o Hlit)
    as (Hkeys & artists & names & Hid & Htitle & Harts & Hnames & Hartist
        & Halbum & Hcover & Hpreview & Hdur & Hext).
  split; [exact Hkeys|]. split.
  - destruct o; try discriminate Hkeys. simpl in Hkeys |- *.
    destruct (has_own props "durationMs") eqn:Hhas; [|reflexivity].
    apply has_own_keys in Hhas. rewrite Hkeys in Hhas.
    simpl in Hhas. intuition discriminate.
  - exists track, artists, names, preview.
    rewrite Hpreview, Hprev. repeat split; assumption.
Qed.

(** Witness of C9 (amended): a search hit with two artists. *)
Lemma normalized_track_fields_witness :
  keys normalized_playable = track_keys
  /\ has_field normalized_playable "durationMs" = false
  /\ get normalized_playable "duration" = Ok (Num 215000)
  /\ get normalized_playable "artist" = Ok (Str "Y, Z").
Proof.
  destruct (normalized_track_fields
              (Obj [("tracks", Obj [("items", Arr [silent; playable])])])
              [normalized_playable] normalized_playable
              (or_intror (or_intror eq_refl)) (or_introl eq_refl))
    as (Hkeys & Hnot & _).
  split; [exact Hkeys|]. split; [exact Hnot|]. split; reflexivity.
Defined.

(** The routes as the client sees them: the scenario of the specification
    for new releases, and a playlist whose only entry is [null], on which
    the filter callback throws and the route answers 500. *)
Example new_releases_scenario :
  new_releases_response (Obj [("albums", Obj [("items", Arr [album_X])])])
  = {| code := 200; payload := Arr [normalized_X] |}.
Proof. reflexivity. Qed.

Example null_playlist_entry_fails :
  featured_tracks_response (Obj [("items", Arr [Null])])
  = {| code := 500;
       payload := Obj [("error", Str "Failed to fetch featured tracks")] |}.
Proof. reflexivity. Qed.

End CatalogFacts.

(* ================================================================== *)
(** ** Properties of the catalog proxy and the routes *)
(* ================================================================== *)

Module ProxyFacts.
Import JS TokenCache Catalog Proxy.

Lemma pbind_Ok {A B} (c : P A) (k : A -> P B) s b s' :
  pbind c k s = (Ok b, s') ->
  exists a s1, c s = (Ok a, s1) /\ k a s1 = (Ok b, s').
Proof.
  unfold pbind. destruct (c s) as [[a|e] s1]; [|discriminate].
  intros H. exists a, s1. split; [reflexivity|exact H].
Qed.

(** A route either answers what its [try] block answers, or 500 with its
    fixed message. *)
Lemma caught_is_generic (body : P http_response) (message : string) s :
  exists resp s',
    ptry body (fail_with message) s = (Ok resp, s')
    /\ (body s = (Ok resp, s')
        \/ resp = {| code := 500;
                     payload := Obj [("error", Str message)] |}).
Proof.
  unfold ptry. destruct (body s) as [[resp|e] s1].
  - exists resp, s1. split; [reflexivity|left; reflexivity].
  - eexists _, _. split; [reflexivity|right; reflexivity].
Qed.

Lemma mapiM_nth f i xs ys :
  mapiM f i xs = Ok ys ->
  List.length ys = List.length xs
  /\ forall k x, nth_error xs k = Some x ->
       exists y, nth_error ys k = Some y /\ f (i + k)%nat x = Ok y.
Proof.
  revert i ys. induction xs as [|x0 xs IH]; simpl; intros i ys H.
  - injection H as <-. split; [reflexivity|].
    intros k x Hk. destruct k; discriminate Hk.
  - destruct (f i x0) as [y0|] eqn:Hy0; [cbn [bind] in H|discriminate H].
    destruct (mapiM f (S i) xs) as [ys'|] eqn:Hrest;
      [cbn [bind] in H|discriminate H].
    injection H as <-. destruct (IH (S i) ys' Hrest) as [Hlen Hnth].
    split; [simpl; congruence|].
    intros [|k] x Hk; simpl in Hk.
    + injection Hk as <-. exists y0. rewrite Nat.add_0_r.
      split; [reflexivity|exact Hy0].
    + destruct (Hnth k x Hk) as (y & Hy & Hf). exists y.
      split; [exact Hy|]. rewrite Nat.add_succ_r. exact Hf.
Qed.

Ltac pbind_inv H :=
  let a := fresh "a" in
  let s1 := fresh "s" in
  let E := fresh "E" in
  apply pbind_Ok in H; destruct H as (a & s1 & E & H); cbv beta in H.

Section Facts.

Variable clientId clientSecret : option string.
Variable base64 : string -> string.
Variable net : nat -> Z * outcome.
Variable api : nat -> request -> Z * api_outcome.
Variable encodeURIComponent : string -> string.
Variable toUpperCase : string -> string.

Local Abbreviation getToken :=
  (getSpotifyToken clientId clientSecret base64 net).
Local Abbreviation proxy :=
  (spotifyApiProxy clientId clientSecret base64 net api).

(** [spotifyApiProxy] written out, by outcome of the token step and of the
    request. *)
Lemma proxy_after_token endpoint s tok w' :
  getToken (cache s) = (Ok tok, w') ->
  proxy endpoint s
  = (let rq := api_request endpoint tok in
     let t := clock w' + fst (api (List.length (calls s)) rq) in
     let made :=
       (calls s ++ [{| asked := rq; answered_at := t;
                       answer := snd (api (List.length (calls s)) rq) |}])%list
     in
     match snd (api (List.length (calls s)) rq) with
     | Failed e =>
         (Throw e, {| cache := logged e (at_time t w'); calls := made |})
     | Answered r =>
         if api_ok r then
           match api_json r with
           | Ok data => (Ok data, {| cache := at_time t w'; calls := made |})
           | Throw e =>
               (Throw e,
                {| cache := logged e (at_time t w'); calls := made |})
           end
         else
           (Throw (Error ("Spotify API error: " ++ of_Z (api_status r))),
            {| cache :=
                 logged (Error ("Spotify API error: "
                                ++ of_Z (api_status r)))
                   (at_time t w');
               calls := made |})
     end).
Proof.
  intros Htok.
  unfold spotifyApiProxy, ptry, pbind, on_cache, api_fetch. rewrite Htok.
  cbn [cache calls].
  destruct (api (List.length (calls s)) (api_request endpoint tok))
    as [elapsed [e|r]]; cbn [fst snd]; [reflexivity|].
  unfold plift, pthrow, pret.
  destruct (api_ok r); cbn [negb]; [|reflexivity].
  destruct (api_json r); reflexivity.
Qed.

Lemma proxy_without_token endpoint s e w' :
  getToken (cache s) = (Throw e, w') ->
  proxy endpoint s
  = (Throw e, {| cache := logged e w'; calls := calls s |}).
Proof.
  intros Htok.
  unfold spotifyApiProxy, ptry, pbind, on_cache. rewrite Htok. reflexivity.
Qed.

Lemma served_token_is_cached w tok w' :
  getToken w = (Ok tok, w') -> accessToken w' = Some tok.
Proof.
  unfold getSpotifyToken. intros Hrun.
  assert (Hfresh : refresh clientId clientSecret base64 net w = (Ok tok, w')
                   -> accessToken w' = Some tok).
  { unfold refresh, report, store_reply, try_catch, mbind, fetch, settle.
    destruct (negb (truthy (env_value clientId))
              || negb (truthy (env_value clientSecret))); simpl;
      [discriminate|].
    destruct (net (List.length (exchanges w))) as [elapsed [e|r]]; simpl;
      [discriminate|].
    destruct (ok r); simpl; [|discriminate].
    unfold lift. destruct (json r) as [data|e]; simpl; [|discriminate].
    intros [= <- <-]. reflexivity. }
  destruct (cache_valid w); [|exact (Hfresh Hrun)].
  destruct (accessToken w) as [tok'|] eqn:Htok; [|exact (Hfresh Hrun)].
  injection Hrun as <- <-. exact Htok.
Qed.

Lemma valid_cache_serves w tok :
  cache_valid w = true -> accessToken w = Some tok ->
  getToken w = (Ok tok, w).
Proof.
  intros Hvalid Htok. unfold getSpotifyToken. rewrite Hvalid, Htok.
  reflexivity.
Qed.

(** The request log after a call for which a token was served. *)
Lemma proxy_calls_after_token endpoint s tok w' :
  getToken (cache s) = (Ok tok, w') ->
  let sent :=
    {| asked := api_request endpoint tok;
       answered_at :=
         clock w'
         + fst (api (List.length (calls s)) (api_request endpoint tok));
       answer :=
         snd (api (List.length (calls s)) (api_request endpoint tok)) |} in
  calls (snd (proxy endpoint s)) = (calls s ++ [sent])%list
  /\ exchanges (cache (snd (proxy endpoint s))) = exchanges w'.
Proof.
  intros Htok sent. subst sent.
  rewrite (proxy_after_token endpoint s tok w' Htok). cbv zeta.
  destruct (snd (api (List.length (calls s)) (api_request endpoint tok)))
    as [e|r]; [split; reflexivity|].
  destruct (api_ok r); [|split; reflexivity].
  destruct (api_json r); split; reflexivity.
Qed.

(** X1. Whenever [getSpotifyToken] serves a token, [spotifyApiProxy] makes
    exactly one request to the catalog API, a GET of the endpoint under
    https://api.spotify.com/v1 whose only header is that token as a bearer
    credential, and makes no round trip to the token endpoint of its own,
    whatever the catalog answers. *)
Theorem proxy_presents_served_token endpoint s tok w' :
  getSpotifyToken clientId clientSecret base64 net (cache s) = (Ok tok, w') ->
  let s' := snd (spotifyApiProxy clientId clientSecret base64 net api
                   endpoint s) in
  let rq := {| url := "https://api.spotify.com/v1" ++ endpoint;
               method := "GET";
               headers := [("Authorization", "Bearer " ++ tok)];
               body := "" |} in
  let sent := {| asked := rq;
                 answered_at :=
                   clock w' + fst (api (List.length (calls s)) rq);
                 answer := snd (api (List.length (calls s)) rq) |} in
  calls s' = (calls s ++ [sent])%list
  /\ exchanges (cache s') = exchanges w'.
Proof.
  intros Htok s' rq sent.
  exact (proxy_calls_after_token endpoint s tok w' Htok).
Qed.

(** X2. When [getSpotifyToken] throws, [spotifyApiProxy] rethrows the same
    error without making any request to the catalog API; the error is
    printed once more on the console. *)
Theorem proxy_without_token_sends_nothing endpoint s e w' :
  getSpotifyToken clientId clientSecret base64 net (cache s) = (Throw e, w') ->
  let run := spotifyApiProxy clientId clientSecret base64 net api endpoint s in
  fst run = Throw e
  /\ calls (snd run) = calls s
  /\ exchanges (cache (snd run)) = exchanges w'
  /\ console (cache (snd run)) = (console w' ++ [e])%list.
Proof.
  intros Htok run. subst run.
  rewrite (proxy_without_token endpoint s e w' Htok).
  repeat split.
Qed.

(** X3. When the catalog API answers with a non-success status,
    [spotifyApiProxy] throws an error that carries the status only, and the
    cached token and expiry stay as [getSpotifyToken] left them: the token
    is not discarded.  A later call made while the guard still holds
    presents the same token again, without asking for a new one. *)
Theorem proxy_refusal_keeps_token endpoint s tok w' r :
  getSpotifyToken clientId clientSecret base64 net (cache s) = (Ok tok, w') ->
  snd (api (List.length (calls s)) (api_request endpoint tok)) = Answered r ->
  api_ok r = false ->
  let run := spotifyApiProxy clientId clientSecret base64 net api endpoint s in
  fst run = Throw (Error ("Spotify API error: " ++ of_Z (api_status r)))
  /\ accessToken (cache (snd run)) = Some tok
  /\ tokenExpiry (cache (snd run)) = tokenExpiry w'
  /\ forall t endpoint',
       cache_valid (at_time t (cache (snd run))) = true ->
       let again :=
         snd (spotifyApiProxy clientId clientSecret base64 net api
                endpoint' (arrive t (snd run))) in
       exchanges (cache again) = exchanges w'
       /\ exists c,
            calls again = (calls (snd run) ++ [c])%list
            /\ asked c = api_request endpoint' tok.
Proof.
  intros Htok Hanswer Hrefused run. subst run.
  pose proof (served_token_is_cached _ _ _ Htok) as Hcached.
  rewrite (proxy_after_token endpoint s tok w' Htok). cbv zeta.
  rewrite Hanswer, Hrefused. cbn [fst snd cache calls].
  split; [reflexivity|]. split; [exact Hcached|]. split; [reflexivity|].
  intros t endpoint' Hvalid.
  match goal with
  | |- context [arrive t ?st] => set (s1 := st) in *
  end.
  assert (Hserve : getToken (cache (arrive t s1))
                   = (Ok tok, cache (arrive t s1))).
  { apply valid_cache_serves; [exact Hvalid|]. exact Hcached. }
  destruct (proxy_calls_after_token endpoint' (arrive t s1) tok
              (cache (arrive t s1)) Hserve) as [Hcalls Hex].
  split.
  - rewrite Hex. reflexivity.
  - eexists. split; [exact Hcalls|]. reflexivity.
Qed.


Local Abbreviation featured_route :=
  (featured_tracks_route clientId clientSecret base64 net api).
Local Abbreviation genres_rt :=
  (genres_route clientId clientSecret base64 net api toUpperCase).
Local Abbreviation genre_route :=
  (genre_tracks_route clientId clientSecret base64 net api).
Local Abbreviation search_rt :=
  (search_route clientId clientSecret base64 net api encodeURIComponent).
Local Abbreviation releases_route :=
  (new_releases_route clientId clientSecret base64 net api).

(** X4. A request to [/api/genre-tracks] without a [genre] parameter (or
    with an empty one), or to [/api/search] without [q], is answered 400 with
    the route's message, and nothing else happens: no token is asked for,
    no request goes to the catalog API, nothing is printed. *)
Theorem missing_parameter_rejected (props : list (string * value))
    (s : Server) :
  (truthy (own props "genre") = false ->
   genre_tracks_route clientId clientSecret base64 net api (Obj props) s
   = (Ok {| code := 400;
            payload := Obj [("error", Str "Genre parameter is required")] |},
      s))
  /\
  (truthy (own props "q") = false ->
   search_route clientId clientSecret base64 net api encodeURIComponent
     (Obj props) s
   = (Ok {| code := 400;
            payload :=
              Obj [("error", Str "Search query parameter is required")] |},
      s)).
Proof.
  split; intros Hmissing.
  - unfold genre_tracks_route, ptry, pbind, plift. cbn [get bind].
    rewrite Hmissing. reflexivity.
  - unfold search_route, ptry, pbind, plift. cbn [get bind].
    rewrite Hmissing. reflexivity.
Qed.


(** X5. No route lets an exception escape: every request is answered.  The
    answer has status 200, or 400 / 404 where the route has such an exit, or
    else it is status 500 with exactly the route's fixed message, whatever
    went wrong (no token, a refusal or a malformed payload upstream). *)
Theorem routes_contain_failures (query : value) (s : Server) :
  (exists resp s',
     featured_tracks_route clientId clientSecret base64 net api query s
     = (Ok resp, s')
     /\ (code resp = 200 \/ code resp = 404
         \/ resp = {| code := 500;
                      payload :=
                        Obj [("error",
                              Str "Failed to fetch featured tracks")] |}))
  /\
  (exists resp s',
     genres_route clientId clientSecret base64 net api toUpperCase s
     = (Ok resp, s')
     /\ (code resp = 200
         \/ resp = {| code := 500;
                      payload :=
                        Obj [("error", Str "Failed to fetch genres")] |}))
  /\
  (exists resp s',
     genre_tracks_route clientId clientSecret base64 net api query s
     = (Ok resp, s')
     /\ (code resp = 200 \/ code resp = 400
         \/ resp = {| code := 500;
                      payload :=
                        Obj [("error",
                              Str "Failed to fetch genre tracks")] |}))
  /\
  (exists resp s',
     search_route clientId clientSecret base64 net api encodeURIComponent
       query s
     = (Ok resp, s')
     /\ (code resp = 200 \/ code resp = 400
         \/ resp = {| code := 500;
                      payload := Obj [("error", Str "Search failed")] |}))
  /\
  (exists resp s',
     new_releases_route clientId clientSecret base64 net api query s
     = (Ok resp, s')
     /\ (code resp = 200
         \/ resp = {| code := 500;
                      payload :=
                        Obj [("error",
                              Str "Failed to fetch new releases")] |})).
Proof.
  refine (conj _ (conj _ (conj _ (conj _ _)))).
  - unfold featured_tracks_route.
    match goal with
    | |- context [ptry ?b (fail_with ?m)] =>
        destruct (caught_is_generic b m s) as (resp & s' & Hrun & Hkind)
    end.
    exists resp, s'. split; [exact Hrun|].
    destruct Hkind as [Hbody | ->]; [|right; right; reflexivity].
    do 3 pbind_inv Hbody.
    destruct (negb (truthy a1)).
    + injection Hbody as <- _. right. left. reflexivity.
    + do 3 pbind_inv Hbody. injection Hbody as <- _. left. reflexivity.
  - unfold genres_route.
    match goal with
    | |- context [ptry ?b (fail_with ?m)] =>
        destruct (caught_is_generic b m s) as (resp & s' & Hrun & Hkind)
    end.
    exists resp, s'. split; [exact Hrun|].
    destruct Hkind as [Hbody | ->]; [|right; reflexivity].
    do 2 pbind_inv Hbody. injection Hbody as <- _. left. reflexivity.
  - unfold genre_tracks_route.
    match goal with
    | |- context [ptry ?b (fail_with ?m)] =>
        destruct (caught_is_generic b m s) as (resp & s' & Hrun & Hkind)
    end.
    exists resp, s'. split; [exact Hrun|].
    destruct Hkind as [Hbody | ->]; [|right; right; reflexivity].
    do 2 pbind_inv Hbody.
    destruct (negb (truthy a)).
    + injection Hbody as <- _. right. left. reflexivity.
    + do 2 pbind_inv Hbody. injection Hbody as <- _. left. reflexivity.
  - unfold search_route.
    match goal with
    | |- context [ptry ?b (fail_with ?m)] =>
        destruct (caught_is_generic b m s) as (resp & s' & Hrun & Hkind)
    end.
    exists resp, s'. split; [exact Hrun|].
    destruct Hkind as [Hbody | ->]; [|right; right; reflexivity].
    do 2 pbind_inv Hbody.
    destruct (negb (truthy a)).
    + injection Hbody as <- _. right. left. reflexivity.
    + do 2 pbind_inv Hbody. injection Hbody as <- _. left. reflexivity.
  - unfold new_releases_route.
    match goal with
    | |- context [ptry ?b (fail_with ?m)] =>
        destruct (caught_is_generic b m s) as (resp & s' & Hrun & Hkind)
    end.
    exists resp, s'. split; [exact Hrun|].
    destruct Hkind as [Hbody | ->]; [|right; reflexivity].
    do 3 pbind_inv Hbody. injection Hbody as <- _. left. reflexivity.
Qed.


(** The first request of a route for which a token was served and the
    catalog answered with a well-formed body. *)
Lemma proxy_answered endpoint s tok w' elapsed r data :
  getToken (cache s) = (Ok tok, w') ->
  api (List.length (calls s)) (api_request endpoint tok)
  = (elapsed, Answered r) ->
  api_ok r = true -> api_json r = Ok data ->
  proxy endpoint s
  = (Ok data,
     {| cache := at_time (clock w' + elapsed) w';
        calls := calls s ++ [{| asked := api_request endpoint tok;
                                answered_at := clock w' + elapsed;
                                answer := Answered r |}] |}).
Proof.
  intros Htok Hapi Hok Hjson.
  rewrite (proxy_after_token endpoint s tok w' Htok). cbv zeta.
  rewrite Hapi. cbn [fst snd]. rewrite Hok, Hjson. reflexivity.
Qed.

(** What follows the request leaves both logs alone. *)
Lemma fetch_and_answer_logs endpoint normalize message s :
  calls (snd (fetch_and_answer clientId clientSecret base64 net api endpoint normalize
           message s))
  = calls (snd (proxy endpoint s))
  /\ exchanges (cache (snd (fetch_and_answer clientId clientSecret base64 net api endpoint normalize
           message s)))
     = exchanges (cache (snd (proxy endpoint s))).
Proof.
  unfold fetch_and_answer, ptry, pbind, plift, pret.
  destruct (proxy endpoint s) as [[data|e] s1]; cbn [snd].
  - destruct (normalize data); split; reflexivity.
  - split; reflexivity.
Qed.

Lemma genre_route_shape props s :
  truthy (own props "genre") = true ->
  genre_route (Obj props) s
  = fetch_and_answer clientId clientSecret base64 net api
      ("/recommendations?seed_genres=" ++ to_string (own props "genre")
       ++ "&limit=" ++ to_string (default_to (Num 20) (own props "limit")))
      genre_tracks "Failed to fetch genre tracks" s.
Proof.
  intros Hgenre.
  unfold genre_tracks_route, fetch_and_answer, ptry, pbind, plift.
  cbn [get bind]. rewrite Hgenre. reflexivity.
Qed.

Lemma search_route_shape props s :
  truthy (own props "q") = true ->
  search_rt (Obj props) s
  = fetch_and_answer clientId clientSecret base64 net api
      ("/search?q=" ++ encodeURIComponent (to_string (own props "q"))
       ++ "&type=track&limit="
       ++ to_string (default_to (Num 20) (own props "limit")))
      search_tracks "Search failed" s.
Proof.
  intros Hq.
  unfold search_route, fetch_and_answer, ptry, pbind, plift.
  cbn [get bind]. rewrite Hq. reflexivity.
Qed.

Lemma releases_route_shape props s :
  releases_route (Obj props) s
  = fetch_and_answer clientId clientSecret base64 net api
      ("/browse/new-releases?limit="
       ++ to_string (if truthy (own props "limit") then own props "limit"
                     else Num 20))
      new_releases "Failed to fetch new releases" s.
Proof.
  unfold new_releases_route, fetch_and_answer, ptry, pbind, plift, or_else.
  cbn [get bind]. destruct (truthy (own props "limit")); reflexivity.
Qed.

Lemma genres_route_shape s :
  genres_rt s
  = fetch_and_answer clientId clientSecret base64 net api
      "/recommendations/available-genre-seeds"
      (genres_of toUpperCase) "Failed to fetch genres" s.
Proof. reflexivity. Qed.

(** X6. Once a token is served, the genre-tracks, search, new-releases and
    genres routes each make exactly one request to the catalog API, with
    that token.  The genre is put into the URL as it is, the search text
    through [encodeURIComponent]; a missing [limit] becomes 20, and so does
    an empty one for new releases, while genre tracks and search pass an
    empty [limit] on. *)
Theorem catalog_requests (props : list (string * value)) (s : Server)
    (tok : string) (w' : World) :
  getSpotifyToken clientId clientSecret base64 net (cache s) = (Ok tok, w') ->
  (truthy (own props "genre") = true ->
   exists c,
     calls (snd (genre_tracks_route clientId clientSecret base64 net api
                   (Obj props) s))
     = (calls s ++ [c])%list
     /\ asked c
        = api_request
            ("/recommendations?seed_genres="
             ++ to_string (own props "genre") ++ "&limit="
             ++ match own props "limit" with
                | Undefined => "20"
                | given => to_string given
                end) tok)
  /\
  (truthy (own props "q") = true ->
   exists c,
     calls (snd (search_route clientId clientSecret base64 net api
                   encodeURIComponent (Obj props) s))
     = (calls s ++ [c])%list
     /\ asked c
        = api_request
            ("/search?q=" ++ encodeURIComponent (to_string (own props "q"))
             ++ "&type=track&limit="
             ++ match own props "limit" with
                | Undefined => "20"
                | given => to_string given
                end) tok)
  /\
  (exists c,
     calls (snd (new_releases_route clientId clientSecret base64 net api
                   (Obj props) s))
     = (calls s ++ [c])%list
     /\ asked c
        = api_request
            ("/browse/new-releases?limit="
             ++ (if truthy (own props "limit")
                 then to_string (own props "limit") else "20")) tok)
  /\
  (exists c,
     calls (snd (genres_route clientId clientSecret base64 net api
                   toUpperCase s))
     = (calls s ++ [c])%list
     /\ asked c = api_request "/recommendations/available-genre-seeds" tok).
Proof.
  intros Htok.
  assert (Hone : forall endpoint normalize message,
            exists c,
              calls (snd (fetch_and_answer clientId clientSecret base64 net
                            api endpoint normalize message s))
              = (calls s ++ [c])%list
              /\ asked c = api_request endpoint tok).
  { intros endpoint normalize message.
    destruct (fetch_and_answer_logs endpoint normalize message s) as [-> _].
    destruct (proxy_calls_after_token endpoint s tok w' Htok) as [-> _].
    eexists. split; reflexivity. }
  refine (conj _ (conj _ (conj _ _))).
  - intros Hgenre. rewrite (genre_route_shape props s Hgenre).
    replace (match own props "limit" with
             | Undefined => "20"
             | given => to_string given
             end)
      with (to_string (default_to (Num 20) (own props "limit")))
      by (destruct (own props "limit"); reflexivity).
    apply Hone.
  - intros Hq. rewrite (search_route_shape props s Hq).
    replace (match own props "limit" with
             | Undefined => "20"
             | given => to_string given
             end)
      with (to_string (default_to (Num 20) (own props "limit")))
      by (destruct (own props "limit"); reflexivity).
    apply Hone.
  - rewrite (releases_route_shape props s).
    replace (if truthy (own props "limit")
             then to_string (own props "limit") else "20")
      with (to_string (if truthy (own props "limit")
                       then own props "limit" else Num 20))
      by (destruct (truthy (own props "limit")); reflexivity).
    apply Hone.
  - rewrite (genres_route_shape s). apply Hone.
Qed.


(** X7. When the catalog's list of featured playlists is empty (its length
    is falsy), [/api/featured-tracks] answers 404 with its message after
    that single request: no playlist is asked for and nothing is printed. *)
Theorem featured_without_playlists props s tok w' elapsed r data count :
  getToken (cache s) = (Ok tok, w') ->
  api (List.length (calls s))
    (api_request "/browse/featured-playlists?limit=1" tok)
  = (elapsed, Answered r) ->
  api_ok r = true -> api_json r = Ok data ->
  Ok data @. "playlists" @. "items" @. "length" = Ok count ->
  truthy count = false ->
  featured_tracks_route clientId clientSecret base64 net api (Obj props) s
  = (Ok {| code := 404;
           payload :=
             Obj [("error", Str "No featured playlists available")] |},
     {| cache := at_time (clock w' + elapsed) w';
        calls := calls s
                   ++ [{| asked :=
                            api_request "/browse/featured-playlists?limit=1"
                              tok;
                          answered_at := clock w' + elapsed;
                          answer := Answered r |}] |}).
Proof.
  intros Htok Hapi Hok Hjson Hcount Hempty.
  unfold featured_tracks_route, ptry. unfold pbind at 1 2 3.
  unfold plift at 1 2. unfold or_else. cbn [get bind].
  rewrite (proxy_answered _ s tok w' elapsed r data Htok Hapi Hok Hjson).
  destruct (truthy (own props "limit")); rewrite Hcount, Hempty; reflexivity.
Qed.

Lemma featured_route_shape props s tok w' elapsed r data count pid :
  getToken (cache s) = (Ok tok, w') ->
  api (List.length (calls s))
    (api_request "/browse/featured-playlists?limit=1" tok)
  = (elapsed, Answered r) ->
  api_ok r = true -> api_json r = Ok data ->
  Ok data @. "playlists" @. "items" @. "length" = Ok count ->
  truthy count = true ->
  Ok data @. "playlists" @. "items" @# 0 @. "id" = Ok pid ->
  featured_route (Obj props) s
  = fetch_and_answer clientId clientSecret base64 net api
      ("/playlists/" ++ to_string pid ++ "/tracks?limit="
       ++ to_string (if truthy (own props "limit") then own props "limit"
                     else Num 50))
      featured_tracks "Failed to fetch featured tracks"
      {| cache := at_time (clock w' + elapsed) w';
         calls := calls s
                    ++ [{| asked :=
                             api_request "/browse/featured-playlists?limit=1"
                               tok;
                           answered_at := clock w' + elapsed;
                           answer := Answered r |}] |}.
Proof.
  intros Htok Hapi Hok Hjson Hcount Hsome Hpid.
  unfold featured_tracks_route, fetch_and_answer, ptry.
  unfold pbind at 1 2 3 4. unfold plift at 1 2 3. unfold or_else.
  cbn [get bind].
  rewrite (proxy_answered _ s tok w' elapsed r data Htok Hapi Hok Hjson).
  destruct (truthy (own props "limit"));
    rewrite Hcount, Hsome; cbn [negb]; rewrite Hpid; reflexivity.
Qed.


(** X8. When the playlist list is not empty and the guard of the token
    cache still holds once the first answer is in, [/api/featured-tracks]
    makes exactly two requests to the catalog API with one and the same
    token and no further round trip to the token endpoint.  The second asks
    for the tracks of the first playlist listed, with the [limit] given or,
    when none (or an empty one) is given, 50. *)
Theorem featured_reuses_token props s tok w' elapsed r data count pid :
  getSpotifyToken clientId clientSecret base64 net (cache s) = (Ok tok, w') ->
  api (List.length (calls s))
    (api_request "/browse/featured-playlists?limit=1" tok)
  = (elapsed, Answered r) ->
  api_ok r = true -> api_json r = Ok data ->
  Ok data @. "playlists" @. "items" @. "length" = Ok count ->
  truthy count = true ->
  Ok data @. "playlists" @. "items" @# 0 @. "id" = Ok pid ->
  cache_valid (at_time (clock w' + elapsed) w') = true ->
  let s' := snd (featured_tracks_route clientId clientSecret base64 net api
                   (Obj props) s) in
  exchanges (cache s') = exchanges w'
  /\ exists c1 c2,
       calls s' = (calls s ++ [c1; c2])%list
       /\ asked c1 = api_request "/browse/featured-playlists?limit=1" tok
       /\ asked c2
          = api_request
              ("/playlists/" ++ to_string pid ++ "/tracks?limit="
               ++ (if truthy (own props "limit")
                   then to_string (own props "limit") else "50")) tok.
Proof.
  intros Htok Hapi Hok Hjson Hcount Hsome Hpid Hvalid s'. subst s'.
  rewrite (featured_route_shape props s tok w' elapsed r data count pid
             Htok Hapi Hok Hjson Hcount Hsome Hpid).
  match goal with
  | |- context [fetch_and_answer _ _ _ _ _ ?ep ?nm ?msg ?st] =>
      destruct (fetch_and_answer_logs ep nm msg st) as [Hcalls Hex];
      rewrite Hcalls, Hex; set (s1 := st); set (endpoint := ep)
  end.
  assert (Hserve : getToken (cache s1) = (Ok tok, cache s1)).
  { apply valid_cache_serves; [exact Hvalid|].
    exact (served_token_is_cached _ _ _ Htok). }
  destruct (proxy_calls_after_token endpoint s1 tok (cache s1) Hserve)
    as [Hcalls2 Hex2].
  rewrite Hcalls2, Hex2. split; [reflexivity|].
  eexists _, _. split; [|split].
  - subst s1. cbn [calls]. rewrite <- app_assoc. reflexivity.
  - reflexivity.
  - cbn [asked]. subst endpoint.
    destruct (truthy (own props "limit")); reflexivity.
Qed.

Lemma genre_literal_inv i g y :
  genre_literal toUpperCase i g = Ok y ->
  exists name,
    g = Str name
    /\ y = Obj [("id", Str name);
                ("name",
                 Str (toUpperCase (substring 0 1 name)
                      ++ substring 1 (String.length name - 1) name));
                ("cover",
                 Str ("https://source.unsplash.com/random/300x300/?"
                      ++ name ++ ",music&" ++ of_nat i))].
Proof.
  unfold genre_literal. destruct g; try discriminate.
  cbn [charAt slice_from bind]. intros [= <-].
  exists s. split; reflexivity.
Qed.

(** X9. [/api/genres] lists at most twelve genres: the answer is built
    from the first twelve upstream entries alone, whatever follows them.
    When it is built, it has one record per such entry, in upstream order;
    each entry is a string, kept as [id], with its first character in upper
    case as [name], and a cover URL that carries the name and the position. *)
Theorem genres_first_twelve (data : value) (gs : list value) :
  get data "genres" = Ok (Arr gs) ->
  (forall data',
     get data' "genres" = Ok (Arr (firstn 12 gs)) ->
     genres_of toUpperCase data = genres_of toUpperCase data')
  /\
  (forall out,
     genres_of toUpperCase data = Ok out ->
     exists records,
       out = Arr records
       /\ List.length records = Nat.min 12 (List.length gs)
       /\ forall i g,
            (i < 12)%nat -> nth_error gs i = Some g ->
            exists name,
              g = Str name
              /\ nth_error records i
                 = Some
                     (Obj [("id", Str name);
                           ("name",
                            Str (toUpperCase (substring 0 1 name)
                                 ++ substring 1 (String.length name - 1)
                                      name));
                           ("cover",
                            Str ("https://source.unsplash.com/random/300x300/?"
                                 ++ name ++ ",music&" ++ of_nat i))])).
Proof.
  intros Hgs. split.
  - intros data' Hgs'. unfold genres_of. rewrite Hgs, Hgs'.
    cbn [bind slice skipn Nat.sub]. rewrite firstn_firstn. reflexivity.
  - intros out Hout. unfold genres_of in Hout. rewrite Hgs in Hout.
    cbn [bind slice skipn Nat.sub mapi] in Hout.
    destruct (mapiM (genre_literal toUpperCase) 0 (firstn 12 gs))
      as [records|] eqn:Hmap; [cbn [bind] in Hout|discriminate Hout].
    injection Hout as <-. exists records.
    destruct (mapiM_nth _ _ _ _ Hmap) as [Hlen Hnth].
    split; [reflexivity|]. split.
    + rewrite Hlen. apply length_firstn.
    + intros i g Hi Hg.
      assert (Hfirst : nth_error (firstn 12 gs) i = Some g).
      { rewrite nth_error_firstn.
        replace (Nat.ltb i 12) with true
          by (symmetry; apply Nat.ltb_lt; exact Hi).
        exact Hg. }
      destruct (Hnth i g Hfirst) as (y & Hy & Hlit).
      destruct (genre_literal_inv _ _ _ Hlit) as (name & -> & ->).
      exists name. split; [reflexivity|exact Hy].
Qed.


End Facts.

(** Witness of X1: a search endpoint asked with a cached token. *)
Lemma proxy_presents_served_token_witness :
  calls (snd (spotifyApiProxy (Some "id") (Some "secret") plain
                (granting_net 250 3600)
                (answering 40 (Obj [("tracks", Obj [("items", Arr [])])]))
                "/search?q=jazz&type=track&limit=20" serving))
  = [{| asked :=
          {| url := "https://api.spotify.com/v1/search?q=jazz&type=track&limit=20";
             method := "GET";
             headers := [("Authorization", "Bearer BQD-token")];
             body := "" |};
        answered_at := 1290;
        answer :=
          Answered {| api_ok := true; api_status := 200;
                      api_json :=
                        Ok (Obj [("tracks", Obj [("items", Arr [])])]) |} |}]
  /\ exchanges
       (cache (snd (spotifyApiProxy (Some "id") (Some "secret") plain
                      (granting_net 250 3600)
                      (answering 40
                         (Obj [("tracks", Obj [("items", Arr [])])]))
                      "/search?q=jazz&type=track&limit=20" serving)))
     = exchanges warm.
Proof.
  exact (proxy_presents_served_token (Some "id") (Some "secret") plain
           (granting_net 250 3600)
           (answering 40 (Obj [("tracks", Obj [("items", Arr [])])]))
           "/search?q=jazz&type=track&limit=20" serving "BQD-token" warm
           eq_refl).
Defined.

(** Witness of X2: no client secret in the environment. *)
Lemma proxy_without_token_sends_nothing_witness :
  fst (spotifyApiProxy (Some "id") None plain (granting_net 250 3600)
         (answering 40 Null) "/browse/new-releases?limit=20" started)
  = Throw (Error "Spotify credentials not configured")
  /\ calls (snd (spotifyApiProxy (Some "id") None plain
                   (granting_net 250 3600) (answering 40 Null)
                   "/browse/new-releases?limit=20" started)) = [].
Proof.
  destruct (proxy_without_token_sends_nothing (Some "id") None plain
              (granting_net 250 3600) (answering 40 Null)
              "/browse/new-releases?limit=20" started
              (Error "Spotify credentials not configured")
              (snd (getSpotifyToken (Some "id") None plain
                      (granting_net 250 3600) cold))
              eq_refl)
    as (Hthrown & Hcalls & _).
  split; [exact Hthrown|exact Hcalls].
Defined.

(** Witness of X3: the catalog answers 401; five seconds later the same
    token is presented again. *)
Lemma proxy_refusal_keeps_token_witness :
  fst (spotifyApiProxy (Some "id") (Some "secret") plain
         (granting_net 250 3600) (refusing 40 401)
         "/browse/new-releases?limit=20" serving)
  = Throw (Error "Spotify API error: 401")
  /\ exists c,
       calls
         (snd (spotifyApiProxy (Some "id") (Some "secret") plain
                 (granting_net 250 3600) (refusing 40 401)
                 "/browse/new-releases?limit=5"
                 (arrive 6290
                    (snd (spotifyApiProxy (Some "id") (Some "secret") plain
                            (granting_net 250 3600) (refusing 40 401)
                            "/browse/new-releases?limit=20" serving)))))
       = (calls
            (snd (spotifyApiProxy (Some "id") (Some "secret") plain
                    (granting_net 250 3600) (refusing 40 401)
                    "/browse/new-releases?limit=20" serving)) ++ [c])%list
       /\ asked c = api_request "/browse/new-releases?limit=5" "BQD-token".
Proof.
  destruct (proxy_refusal_keeps_token (Some "id") (Some "secret") plain
              (granting_net 250 3600) (refusing 40 401)
              "/browse/new-releases?limit=20" serving "BQD-token" warm
              {| api_ok := false; api_status := 401;
                 api_json := Ok (Obj [("error", Str "upstream detail")]) |}
              eq_refl eq_refl eq_refl)
    as (Hthrown & _ & _ & Hagain).
  split; [exact Hthrown|].
  destruct (Hagain 6290 "/browse/new-releases?limit=5" eq_refl)
    as (_ & c & Hcalls & Hasked).
  exists c. split; [exact Hcalls|exact Hasked].
Defined.

(** Witness of X4: an empty query string. *)
Lemma missing_parameter_rejected_witness :
  genre_tracks_route (Some "id") (Some "secret") plain
    (granting_net 250 3600) (answering 40 Null) (Obj []) started
  = (Ok {| code := 400;
           payload := Obj [("error", Str "Genre parameter is required")] |},
     started)
  /\ search_route (Some "id") (Some "secret") plain
       (granting_net 250 3600) (answering 40 Null) plain
       (Obj [("q", Str "")]) started
     = (Ok {| code := 400;
              payload :=
                Obj [("error", Str "Search query parameter is required")] |},
        started).
Proof.
  split.
  - apply (missing_parameter_rejected (Some "id") (Some "secret") plain
             (granting_net 250 3600) (answering 40 Null) plain [] started).
    reflexivity.
  - apply (missing_parameter_rejected (Some "id") (Some "secret") plain
             (granting_net 250 3600) (answering 40 Null) plain
             [("q", Str "")] started).
    reflexivity.
Defined.

(** Witness of X6: [?genre=rock&q=miles davis&limit=] on a cold start. *)
Lemma catalog_requests_witness :
  (exists c,
     calls (snd (genre_tracks_route (Some "id") (Some "secret") plain
                   (granting_net 250 3600) (answering 40 Null)
                   (Obj [("genre", Str "rock"); ("q", Str "miles davis");
                         ("limit", Str "")])
                   started))
     = [c]
     /\ asked c
        = api_request "/recommendations?seed_genres=rock&limit=" "BQD-token")
  /\
  (exists c,
     calls (snd (search_route (Some "id") (Some "secret") plain
                   (granting_net 250 3600) (answering 40 Null) encode_spaces
                   (Obj [("genre", Str "rock"); ("q", Str "miles davis");
                         ("limit", Str "")])
                   started))
     = [c]
     /\ asked c
        = api_request "/search?q=miles%20davis&type=track&limit="
            "BQD-token")
  /\
  (exists c,
     calls (snd (new_releases_route (Some "id") (Some "secret") plain
                   (granting_net 250 3600) (answering 40 Null)
                   (Obj [("genre", Str "rock"); ("q", Str "miles davis");
                         ("limit", Str "")])
                   started))
     = [c]
     /\ asked c = api_request "/browse/new-releases?limit=20" "BQD-token").
Proof.
  destruct (catalog_requests (Some "id") (Some "secret") plain
              (granting_net 250 3600) (answering 40 Null) encode_spaces upper
              [("genre", Str "rock"); ("q", Str "miles davis");
               ("limit", Str "")]
              started "BQD-token" warm eq_refl)
    as (Hgenre & Hsearch & Hreleases & _).
  split; [exact (Hgenre eq_refl)|].
  split; [exact (Hsearch eq_refl)|exact Hreleases].
Defined.

(** Witness of X7: no featured playlist today. *)
Lemma featured_without_playlists_witness :
  featured_tracks_route (Some "id") (Some "secret") plain
    (granting_net 250 3600) (answering 40 (featured_playlists []))
    (Obj []) started
  = (Ok {| code := 404;
           payload :=
             Obj [("error", Str "No featured playlists available")] |},
     {| cache := at_time 1290 warm;
        calls :=
          [{| asked :=
                api_request "/browse/featured-playlists?limit=1" "BQD-token";
              answered_at := 1290;
              answer :=
                Answered {| api_ok := true; api_status := 200;
                            api_json := Ok (featured_playlists []) |} |}] |}).
Proof.
  exact (featured_without_playlists (Some "id") (Some "secret") plain
           (granting_net 250 3600) (answering 40 (featured_playlists []))
           [] started "BQD-token" warm 40
           {| api_ok := true; api_status := 200;
              api_json := Ok (featured_playlists []) |}
           (featured_playlists []) (Num 0)
           eq_refl eq_refl eq_refl eq_refl eq_refl eq_refl).
Defined.

(** Witness of X8: the first request after start; the token granted for
    the first upstream request is presented with the second. *)
Lemma featured_reuses_token_witness :
  exchanges
    (cache (snd (featured_tracks_route (Some "id") (Some "secret") plain
                   (granting_net 250 3600) catalog (Obj []) started)))
  = exchanges warm
  /\ exists c1 c2,
       calls (snd (featured_tracks_route (Some "id") (Some "secret") plain
                     (granting_net 250 3600) catalog (Obj []) started))
       = [c1; c2]
       /\ asked c1
          = api_request "/browse/featured-playlists?limit=1" "BQD-token"
       /\ asked c2
          = api_request "/playlists/37i9dQZF1DXcBWIGoYBM5M/tracks?limit=50"
              "BQD-token".
Proof.
  exact (featured_reuses_token (Some "id") (Some "secret") plain
           (granting_net 250 3600) catalog [] started "BQD-token" warm 40
           {| api_ok := true; api_status := 200;
              api_json := Ok (featured_playlists [playlist_37i9]) |}
           (featured_playlists [playlist_37i9]) (Num 1)
           (Str "37i9dQZF1DXcBWIGoYBM5M")
           eq_refl eq_refl eq_refl eq_refl eq_refl eq_refl eq_refl eq_refl).
Defined.

Example featured_tracks_from_cold_start :
  fst (featured_tracks_route (Some "id") (Some "secret") plain
         (granting_net 250 3600) catalog (Obj []) started)
  = Ok {| code := 200; payload := Arr [Samples.normalized_playable] |}.
Proof. reflexivity. Qed.

(** Witness of X9: fourteen seeds, the thirteenth not even a string. *)
Lemma genres_first_twelve_witness :
  exists records,
    genres_of upper genre_seeds = Ok (Arr records)
    /\ List.length records = 12%nat
    /\ nth_error records 2
       = Some (Obj [("id", Str "alt-rock"); ("name", Str "Alt-rock");
                    ("cover",
                     Str "https://source.unsplash.com/random/300x300/?alt-rock,music&2")]).
Proof.
  destruct (genres_first_twelve upper genre_seeds
              [Str "acoustic"; Str "afrobeat"; Str "alt-rock"; Str "ambient";
               Str "blues"; Str "chill"; Str "classical"; Str "club";
               Str "country"; Str "dance"; Str "disco"; Str "dub";
               Num 13; Str "folk"] eq_refl)
    as (_ & Hbuilt).
  destruct (Hbuilt (match genres_of upper genre_seeds with
                    | Ok out => out
                    | Throw _ => Null
                    end) eq_refl)
    as (records & Hout & Hlen & Hnth).
  exists records. split; [rewrite <- Hout; reflexivity|].
  split; [exact Hlen|].
  destruct (Hnth 2%nat (Str "alt-rock") ltac:(lia) eq_refl)
    as (name & Hname & Hrecord).
  injection Hname as <-. exact Hrecord.
Defined.

End ProxyFacts.

(* ================================================================== *)
(** ** Properties of [extractMetadata] and the upload route *)
(* ================================================================== *)

Module MetadataFacts.
Import JS Catalog Extract Metadata.





Lemma content_remove_other fs path p :
  p <> path -> content (remove path fs) p = content fs p.
Proof.
  intros Hp. induction fs as [|[q x] fs IH]; simpl; [reflexivity|].
  destruct (String.eqb_spec q path) as [->|Hne].
  - rewrite IH. destruct (String.eqb_spec path p); [congruence|reflexivity].
  - simpl. rewrite IH. reflexivity.
Qed.


Lemma split_on_piece kind rest :
  free_of slash kind = true ->
  split_on slash (kind ++ String slash rest) = kind :: split_on slash rest.
Proof.
  induction kind as [|c kind IH]; simpl; intros Hfree.
  - reflexivity.
  - apply andb_prop in Hfree as [Hc Hkind].
    apply negb_true_iff in Hc. rewrite Hc. rewrite (IH Hkind). reflexivity.
Qed.

Lemma split_on_whole s :
  free_of slash s = true -> split_on slash s = [s].
Proof.
  induction s as [|c s IH]; simpl; intros Hfree; [reflexivity|].
  apply andb_prop in Hfree as [Hc Hs].
  apply negb_true_iff in Hc. rewrite Hc. rewrite (IH Hs). reflexivity.
Qed.

Lemma steady_ret stamp untouched {A} (a : A) :
  steady stamp untouched (dret a).
Proof. intros d Hd. repeat split; assumption. Qed.

Lemma steady_lift stamp untouched {A} (r : result A) :
  steady stamp untouched (dlift r).
Proof. intros d Hd. repeat split; assumption. Qed.

Lemma steady_now stamp untouched : steady stamp untouched Date_now.
Proof. intros d Hd. repeat split; assumption. Qed.

Lemma steady_bind stamp untouched {A B} (c : D A) (k : A -> D B) :
  steady stamp untouched c -> (forall a, steady stamp untouched (k a)) ->
  steady stamp untouched (dbind c k).
Proof.
  intros Hc Hk d Hd. unfold dbind.
  destruct (Hc d Hd) as (Hnow & Hprinted & Hfiles).
  destruct (c d) as [[a|e] d1]; cbn [snd] in *.
  - destruct (Hk a d1 Hnow) as (Hnow' & Hprinted' & Hfiles').
    split; [exact Hnow'|]. split; [congruence|].
    intros p Hp. rewrite (Hfiles' p Hp). apply Hfiles. exact Hp.
  - repeat split; assumption.
Qed.

Lemma steady_unlink stamp (untouched : string -> Prop) path :
  (forall p, untouched p -> p <> path) ->
  steady stamp untouched (unlink_quietly path).
Proof.
  intros Hpath d Hd. cbn. split; [exact Hd|]. split; [reflexivity|].
  intros p Hp. apply content_remove_other. apply Hpath. exact Hp.
Qed.

Section Facts.

Variable COVER_DIR : string.
Variable path_join : string -> string -> string.
Variable mkdir_error : string -> option exn.
Variable write_error : string -> value -> option exn.
Variable ffprobe : string -> result value.
Variable parseFile : string -> result value.
Variable bitrate_of duration_of : value -> value -> result value.
Variable sampleRate_of : value -> value -> result value.
Variable size_of : value -> result value.
Variable type_error_message : string -> string.

Local Abbreviation extract :=
  (extractMetadata COVER_DIR path_join mkdir_error write_error ffprobe
     parseFile bitrate_of duration_of sampleRate_of size_of).
Local Abbreviation cover := (save_cover COVER_DIR path_join write_error).

Lemma steady_mkdir stamp untouched path :
  steady stamp untouched (mkdir mkdir_error path).
Proof.
  intros d Hd. unfold mkdir.
  destruct (mkdir_error path); repeat split; assumption.
Qed.

Lemma steady_writeFile stamp (untouched : string -> Prop) path data :
  (forall p, untouched p -> p <> path) ->
  steady stamp untouched (writeFile write_error path data).
Proof.
  intros Hpath d Hd. unfold writeFile.
  destruct (write_error path data); [repeat split; assumption|].
  cbn. split; [exact Hd|]. split; [reflexivity|].
  intros p Hp. pose proof (Hpath p Hp) as Hne.
  destruct (String.eqb_spec path p); [congruence|].
  apply content_remove_other. exact Hne.
Qed.

Lemma steady_cover filePath stamp c :
  steady stamp (spared COVER_DIR path_join filePath stamp) (cover c).
Proof.
  unfold save_cover.
  apply steady_bind; [apply steady_lift|]. intros picture.
  destruct (has_items picture); [|apply steady_ret].
  apply steady_bind; [apply steady_lift|]. intros pic.
  apply steady_bind; [apply steady_lift|]. intros ext.
  intros d Hd.
  assert (Hrest : steady stamp (spared COVER_DIR path_join filePath stamp)
            (dbind (dlift (get pic "data")) (fun data =>
             dbind (writeFile write_error
                      (path_join COVER_DIR (cover_name stamp ext)) data)
               (fun _ => dret (Str ("/covers/" ++ cover_name stamp ext)))))).
  { apply steady_bind; [apply steady_lift|]. intros data.
    apply steady_bind; [|intros; apply steady_ret].
    apply steady_writeFile. intros p [_ Hp]. apply Hp. }
  match goal with
  | |- context [dbind Date_now ?k d] =>
      change (dbind Date_now k d) with (k (now d) d); rewrite Hd
  end.
  exact (Hrest d Hd).
Qed.

(** The [try] block of [extractMetadata]. *)
Lemma steady_body filePath stamp :
  steady stamp (spared COVER_DIR path_join filePath stamp)
    (dbind (mkdir mkdir_error COVER_DIR) (fun _ =>
     dbind (dlift (ffprobe filePath)) (fun probe =>
     dbind (dlift (parseFile filePath)) (fun meta =>
     dbind (dlift (common_tags meta)) (fun c =>
     dbind (dlift (format_info probe meta)) (fun f =>
     dbind (dlift (stream_info probe)) (fun stream0 =>
     dbind (cover c) (fun coverUrl =>
     dbind (dlift (extracted_of bitrate_of duration_of sampleRate_of size_of
                     c f stream0 meta coverUrl)) (fun extracted =>
     dbind (unlink_quietly filePath) (fun _ =>
     dret extracted)))))))))).
Proof.
  apply steady_bind; [apply steady_mkdir|]. intros _.
  apply steady_bind; [apply steady_lift|]. intros probe.
  apply steady_bind; [apply steady_lift|]. intros meta.
  apply steady_bind; [apply steady_lift|]. intros c.
  apply steady_bind; [apply steady_lift|]. intros f.
  apply steady_bind; [apply steady_lift|]. intros stream0.
  apply steady_bind; [apply steady_cover|]. intros coverUrl.
  apply steady_bind; [apply steady_lift|]. intros extracted.
  apply steady_bind; [|intros; apply steady_ret].
  apply steady_unlink. intros p [Hp _]. exact Hp.
Qed.


Lemma one_failure (filePath : string) (d : Disk) :
  (exists extracted,
     fst (extract filePath d) = Ok extracted
     /\ printed (snd (extract filePath d)) = printed d)
  \/ (fst (extract filePath d) = Throw (Error "Failed to extract metadata")
      /\ exists cause,
           printed (snd (extract filePath d)) = (printed d ++ [cause])%list).
Proof.
  unfold extractMetadata, dtry.
  destruct (steady_body filePath (now d) d eq_refl) as (_ & Hprinted & _).
  match goal with
  | |- context [match ?body d with _ => _ end] =>
      change (printed (snd (body d)) = printed d) in Hprinted;
      destruct (body d) as [[v|e] d1]
  end; cbn [snd] in Hprinted.
  - left. exists v. split; [reflexivity|exact Hprinted].
  - right. cbn. split; [reflexivity|]. exists e. rewrite Hprinted. reflexivity.
Qed.


(** X11. [extractMetadata] fails in one way only: whatever went wrong
    (the probe, the tag parser, the disk, a malformed tag), what it throws
    is the error "Failed to extract metadata"; the cause is printed on the
    console and nowhere else.  When it returns, nothing is printed. *)
Theorem extraction_fails_one_way (filePath : string) (d : Disk) :
  let run := extractMetadata COVER_DIR path_join mkdir_error write_error
               ffprobe parseFile bitrate_of duration_of sampleRate_of size_of
               filePath d in
  (exists extracted, fst run = Ok extracted /\ printed (snd run) = printed d)
  \/ (fst run = Throw (Error "Failed to extract metadata")
      /\ exists cause, printed (snd run) = (printed d ++ [cause])%list).
Proof. exact (one_failure filePath d). Qed.

(** X12. [extractMetadata] touches two files at most: the upload, which it
    removes, and a cover named after the clock reading, which it may write
    under [COVER_DIR].  Every other file holds afterwards what it held
    before. *)
Theorem other_files_untouched (filePath : string) (d : Disk) (p : string) :
  p <> filePath ->
  (forall ext, p <> path_join COVER_DIR (cover_name (now d) ext)) ->
  content
    (files (snd (extractMetadata COVER_DIR path_join mkdir_error write_error
                   ffprobe parseFile bitrate_of duration_of sampleRate_of
                   size_of filePath d)))
    p
  = content (files d) p.
Proof.
  intros Hupload Hcover. unfold extractMetadata, dtry.
  destruct (steady_body filePath (now d) d eq_refl) as (_ & _ & Hfiles).
  specialize (Hfiles p (conj Hupload Hcover)).
  match goal with
  | |- context [match ?body d with _ => _ end] =>
      change (content (files (snd (body d))) p = content (files d) p)
        in Hfiles;
      destruct (body d) as [[v|e] d1]
  end; cbn [snd] in Hfiles.
  - exact Hfiles.
  - cbn. rewrite content_remove_other by exact Hupload. exact Hfiles.
Qed.




(** X14. The extension of a saved cover is what follows the slash of the
    picture's MIME type; it is "jpg" when the picture has no format, when
    the format has no slash, or when nothing follows the slash. *)
Theorem cover_extension (pic format : value) :
  get pic "format" = Ok format ->
  (nullish format = true -> cover_ext pic = Ok (Str "jpg"))
  /\ (forall kind sub,
        format = Str (kind ++ "/" ++ sub) ->
        free_of slash kind = true -> free_of slash sub = true ->
        cover_ext pic = Ok (Str (if (sub =? "")%string then "jpg" else sub)))
  /\ (forall whole,
        format = Str whole -> free_of slash whole = true ->
        cover_ext pic = Ok (Str "jpg")).
Proof.
  intros Hformat. unfold cover_ext, opt_chain. rewrite Hformat. cbn [bind].
  refine (conj _ (conj _ _)).
  - intros ->. reflexivity.
  - intros kind sub -> Hkind Hsub. cbn [nullish split_slash bind].
    change (kind ++ "/" ++ sub) with (kind ++ String slash sub).
    rewrite (split_on_piece kind sub Hkind), (split_on_whole sub Hsub).
    cbn [List.map index nth or_else bind truthy].
    destruct (sub =? "")%string; reflexivity.
  - intros whole -> Hwhole. cbn [nullish split_slash bind].
    rewrite (split_on_whole whole Hwhole). reflexivity.
Qed.

(** X15. The genre entry: of a list of genres the first is taken, so an
    empty list gives [undefined] and not the placeholder; a genre that is
    not a list is kept when truthy and replaced by "Unknown" otherwise. *)
Theorem genre_entry (c genre : value) :
  get c "genre" = Ok genre ->
  (forall genres, genre = Arr genres ->
     genre_of c = Ok (nth 0 genres Undefined))
  /\ (is_array genre = false -> truthy genre = true -> genre_of c = Ok genre)
  /\ (is_array genre = false -> truthy genre = false ->
        genre_of c = Ok (Str "Unknown")).
Proof.
  intros Hgenre. unfold genre_of, dot, at_index, or_else.
  cbn [bind]. rewrite Hgenre. cbn [bind].
  refine (conj _ (conj _ _)).
  - intros genres ->. reflexivity.
  - intros -> ->. reflexivity.
  - intros -> ->. reflexivity.
Qed.





End Facts.

Example extract_sample_metadata : fst extract_sample = Ok sample_metadata.
Proof. reflexivity. Qed.

Example extract_sample_disk :
  files (snd extract_sample)
  = [("/app/covers/cover_1700000000000.png", Str "PNG-bytes");
     ("uploads/77c0", Str "other upload")].
Proof. reflexivity. Qed.

(** Witness of X12: the other upload is still there. *)
Lemma other_files_untouched_witness :
  content (files (snd extract_sample)) "uploads/77c0"
  = Some (Str "other upload").
Proof.
  apply (other_files_untouched "/app/covers" join_posix never never2
           probe_mp3 tags_mp3 unread unread unread unread1
           "uploads/3f2a" sample_disk "uploads/77c0").
  - discriminate.
  - intros ext. discriminate.
Defined.


(** Witness of X14: image/png. *)
Lemma cover_extension_witness : cover_ext png_picture = Ok (Str "png").
Proof.
  destruct (cover_extension png_picture (Str "image/png") eq_refl)
    as (_ & Hsub & _).
  exact (Hsub "image" "png" eq_refl eq_refl eq_refl).
Defined.

(** Witness of X15: an empty list of genres. *)
Lemma genre_entry_witness :
  genre_of (Obj [("title", Str "Take Five"); ("genre", Arr [])])
  = Ok Undefined.
Proof.
  destruct (genre_entry (Obj [("title", Str "Take Five"); ("genre", Arr [])])
              (Arr []) eq_refl)
    as (Hlist & _).
  exact (Hlist [] eq_refl).
Defined.


End MetadataFacts.
